(** * Stale issue processor: a shallow embedding of [src/IssueProcessor.ts]

    The class [IssueProcessor] walks the open issues of a repository page by
    page, marks the old ones stale and closes the ones that stayed stale.
    Its fields ([operationsLeft] and the three bookkeeping arrays), the
    issue objects it mutates and the calls it issues to the outside are
    threaded explicitly through a state-and-exception monad; the outside
    (GitHub, the clock) is an arbitrary deterministic strategy [Env] that
    answers each call from the history of the calls issued so far.

    What is left out: the narration through [core.info] and
    [core.warning], which has no bearing on the state, and the fetchers
    that the constructor accepts in place of [getIssues],
    [listIssueComments] and [getLabelCreationDate]; the methods below are
    the ones the class defines. *)

From stdpp Require Import base decidable option list gmap strings.
From Stdlib Require Import ZArith Lia Ascii.
From Stdlib Require String.
Import String.StringSyntax.

Local Open Scope string_scope.
Local Open Scope Z_scope.
Local Open Scope list_scope.

(** ** JavaScript strings that reach [localeCompare]

    Label names are the only strings the processor compares with a
    collator.  They are modelled in decomposed form: a character is an
    ASCII base character followed by at most one combining diacritic
    (U+0301 acute, U+0300 grave, U+0302 circumflex, U+0308 diaeresis,
    U+0303 tilde), which is the level of detail the collator's
    [sensitivity] option distinguishes: base letter, accent, case.  The
    codes above 127 of [ascii] lie outside this alphabet. *)

Inductive Diacritic := NoMark | Acute | Grave | Circumflex | Diaeresis | Tilde.

Record Char := mkChar { base : ascii; mark : Diacritic }.

Abbreviation Str := (list Char).

#[global] Instance Diacritic_eq_dec : EqDecision Diacritic.
Proof. solve_decision. Defined.

#[global] Instance Char_eq_dec : EqDecision Char.
Proof. solve_decision. Defined.

(** An unaccented string literal. *)
Definition plain (s : string) : Str :=
  (fun c => mkChar c NoMark) <$> String.list_ascii_of_string s.

Definition is_upper (c : ascii) : bool :=
  (65 <=? Z.of_nat (nat_of_ascii c)) && (Z.of_nat (nat_of_ascii c) <=? 90).

Definition to_lower (c : ascii) : ascii :=
  if is_upper c then ascii_of_nat (nat_of_ascii c + 32) else c.

(** The code points of a name: each base character, followed by its
    combining mark if it has one. *)
Inductive Sym := Letter (c : ascii) | Mark (m : Diacritic).

Definition code_points_of (c : Char) : list Sym :=
  Letter (base c) :: match mark c with NoMark => [] | m => [Mark m] end.

Definition code_points (s : Str) : list Sym := flat_map code_points_of s.

(** The control characters to which the collator gives no weight at any
    level: U+0000 to U+0008, U+000E to U+001F and U+007F.  (TAB, LF, VT, FF
    and CR are white space and do have a weight.) *)
Definition is_control (c : ascii) : bool :=
  (Z.of_nat (nat_of_ascii c) <=? 8)
  || ((14 <=? Z.of_nat (nat_of_ascii c)) && (Z.of_nat (nat_of_ascii c) <=? 31))
  || (Z.of_nat (nat_of_ascii c) =? 127).

(** Collation, after the Unicode collation algorithm.  A code point maps
    to collation elements, each a primary weight (none for a combining
    mark) and a secondary weight; the two cases of a letter share their
    primary weight, which is written here as the lower-case letter, and
    differ at the third level only.  With [sensitivity: 'accent'] the
    collator compares the sort keys of the first two levels: the primary
    weights that are there, in order, then the secondary weights, in order
    (ECMA-402: "a ≠ b, a ≠ á, a = A"). *)
Inductive Secondary := Common | Accent (m : Diacritic).

#[global] Instance Secondary_eq_dec : EqDecision Secondary.
Proof. solve_decision. Defined.

Definition collation_elements (x : Sym) : list (option ascii * Secondary) :=
  match x with
  | Letter c => if is_control c then [] else [(Some (to_lower c), Common)]
  | Mark m => [(None, Accent m)]
  end.

Definition sort_key_accent (s : Str) : list ascii * list Secondary :=
  let ces := flat_map collation_elements (code_points s) in
  (omap fst ces, snd <$> ces).

(** [a.localeCompare(b, undefined, {sensitivity: 'accent'}) === 0] *)
Definition localeCompare_accent_is_0 (a b : Str) : bool :=
  bool_decide (sort_key_accent a = sort_key_accent b).

(** The two relations on names that the documentation speaks of.  Two
    names are equal ignoring case when they read the same once the control
    characters are left out and every letter is put in lower case. *)
Definition visible (x : Sym) : bool :=
  match x with
  | Letter c => negb (is_control c)
  | Mark _ => true
  end.

Definition lower_case (x : Sym) : Sym :=
  match x with
  | Letter c => Letter (to_lower c)
  | Mark m => Mark m
  end.

Definition folded (s : Str) : list Sym :=
  lower_case <$> List.filter visible (code_points s).

Definition equal_ignoring_case (a b : Str) : Prop :=
  folded a = folded b.

(** The letters of a text, and its outline: where the letters stand and
    which marks stand between them. *)
Definition letters (n : list Sym) : list ascii :=
  omap (fun x => match x with Letter c => Some c | Mark _ => None end) n.

Definition outline (n : list Sym) : list Secondary :=
  (fun x => match x with Letter _ => Common | Mark m => Accent m end) <$> n.

Definition base_key (s : Str) : list ascii :=
  (fun c => to_lower (base c)) <$> s.

Definition equal_ignoring_case_and_accents (a b : Str) : Prop :=
  base_key a = base_key b.

(** [encodeURIComponent]: letters, digits and [- _ . ! ~ * ' ( )] stand for
    themselves, every other code point (of the decomposed form in which
    the names are held here) is written as the bytes of its UTF-8 form,
    each as [%XX]. *)
Definition is_unreserved (c : ascii) : bool :=
  ((65 <=? Z.of_nat (nat_of_ascii c)) && (Z.of_nat (nat_of_ascii c) <=? 90))
  || ((97 <=? Z.of_nat (nat_of_ascii c)) && (Z.of_nat (nat_of_ascii c) <=? 122))
  || ((48 <=? Z.of_nat (nat_of_ascii c)) && (Z.of_nat (nat_of_ascii c) <=? 57))
  || existsb (Ascii.eqb c) (String.list_ascii_of_string "-_.!~*'()").

Definition hex_digit (n : nat) : ascii :=
  nth n (String.list_ascii_of_string "0123456789ABCDEF") "0"%char.

Definition percent (byte : nat) : list ascii :=
  ["%"%char; hex_digit (byte / 16)%nat; hex_digit (byte mod 16)%nat].

Definition utf8 (x : Sym) : list nat :=
  match x with
  | Letter c =>
      if (nat_of_ascii c <? 128)%nat then [nat_of_ascii c]
      else [192 + nat_of_ascii c / 64; 128 + nat_of_ascii c mod 64]%nat
  | Mark NoMark => []
  | Mark Grave => [204; 128]%nat
  | Mark Acute => [204; 129]%nat
  | Mark Circumflex => [204; 130]%nat
  | Mark Tilde => [204; 131]%nat
  | Mark Diaeresis => [204; 136]%nat
  end.

Definition encode_code_point (x : Sym) : list ascii :=
  match x with
  | Letter c => if is_unreserved c then [c] else flat_map percent (utf8 x)
  | Mark _ => flat_map percent (utf8 x)
  end.

Definition encodeURIComponent (s : Str) : Str :=
  (fun c => mkChar c NoMark) <$> flat_map encode_code_point (code_points s).

(** ** Timestamps held in strings

    [updated_at] and [created_at] are strings.  The code only ever tests
    such a string for emptiness and feeds it to [new Date(...)]; a value
    records what those two observations return. *)
Inductive TimeString :=
| TSempty                 (* the empty string: falsy, an Invalid Date *)
| TSinvalid               (* a non-empty string that is no date, e.g. "Invalid Date" *)
| TSdate (t : Z).         (* a non-empty string that parses to time value t (ms) *)

#[global] Instance TimeString_eq_dec : EqDecision TimeString.
Proof. solve_decision. Defined.

(** Truthiness of the string. *)
Definition truthy (ts : TimeString) : bool :=
  match ts with TSempty => false | _ => true end.

(** [new Date(ts).getTime()]; [None] is NaN. *)
Definition Date_getTime (ts : TimeString) : option Z :=
  match ts with TSdate t => Some t | _ => None end.

(** [TimeClip]: a Date holds a time value of at most 8.64e15 ms in
    magnitude, or NaN. *)
Definition TimeClip (t : Z) : option Z :=
  if Z.abs t <=? 8640000000000000 then Some t else None.

(** ** The interfaces of the source *)

Record Label := mkLabel { name : Str }.

Record Issue := mkIssue {
  title : string;
  number : Z;
  updated_at : TimeString;
  labels : list Label;
  pull_request : bool;     (* only its truthiness is read: [!!issue.pull_request] *)
  state : string;
  locked : bool;
}.

Record User := mkUser { type : string; login : string }.

Record Comment := mkComment { user : User }.

Record IssueEvent := mkIssueEvent {
  created_at : TimeString;
  event : string;
  label : Label;
}.

(** The day counts and the budget are JavaScript numbers holding integers;
    on such values, and on clock readings within the range of a Date, the
    arithmetic of the code is exact and [Z] models it. *)
Record IssueProcessorOptions := mkOptions {
  repoToken : string;
  staleIssueMessage : string;
  stalePrMessage : string;
  daysBeforeStale : Z;
  daysBeforeClose : Z;
  staleIssueLabel : Str;
  exemptIssueLabels : Str;
  stalePrLabel : Str;
  exemptPrLabels : Str;
  onlyLabels : string;
  operationsPerRun : Z;
  removeStaleWhenUpdated : bool;
  debugOnly : bool;
}.

#[global] Instance Label_eq_dec : EqDecision Label.
Proof. solve_decision. Defined.

#[global] Instance Issue_inhabited : Inhabited Issue :=
  populate (mkIssue "" 0 TSempty [] false "" false).

(** ** Calls that leave the processor

    Issue objects live in a heap and are handled by reference, since the
    processor mutates [updated_at] in place while the bookkeeping arrays
    alias the same object. *)
Abbreviation ref := nat.

Inductive Call :=
| NewDate                                                  (* new Date() *)
| ListForRepo (state_ labels_ : string) (per_page page : Z) (* issues.listForRepo *)
| ListEvents (per_page issue_number : Z)                   (* paginate(issues.listEvents) *)
| ListComments (issue_number : Z) (since : TimeString)     (* issues.listComments *)
| CreateComment (issue_number : Z) (body : string)         (* issues.createComment *)
| AddLabels (issue_number : Z) (labels_ : list Str)        (* issues.addLabels *)
| Update (issue_number : Z) (state_ : string)              (* issues.update *)
| RemoveLabel (issue_number : Z) (name_ : Str).            (* issues.removeLabel *)

(** The four calls that change the repository. *)
Definition is_mutation (c : Call) : bool :=
  match c with
  | CreateComment _ _ | AddLabels _ _ | Update _ _ | RemoveLabel _ _ => true
  | _ => false
  end.

(** The three calls that read from the repository. *)
Definition is_read (c : Call) : bool :=
  match c with
  | ListForRepo _ _ _ _ | ListEvents _ _ | ListComments _ _ => true
  | _ => false
  end.

(** The outside world.  Every answer may depend on all the calls issued
    before; [None] is a rejected promise. *)
Record Env := mkEnv {
  actor : string;                                          (* github.context.actor *)
  clock : list Call -> Z;                                   (* new Date().getTime() *)
  pages : list Call -> Call -> option (list ref);
  events : list Call -> Call -> option (list IssueEvent);
  comments : list Call -> Call -> option (list Comment);
  writes : list Call -> Call -> bool;
  reparse_early : Z -> option Z;   (* new Date(d.toString()).getTime() for a date d before year 100 *)
}.

(** 0100-01-01T00:00:00Z, in ms since the epoch. *)
Definition YEAR_100 : Z := -59011459200000.

(** [Date.prototype.toString] prints the date down to the second
    ("Tue Nov 14 2023 22:13:20 GMT+0000 (...)"): the milliseconds are not
    part of the string, so from year 100 on it parses back to the whole
    second below (the process runs in UTC, where the offset printed is
    exact).  The string of an earlier date has a year of fewer than three
    digits, and what the parser of the engine makes of it (a year of the
    twentieth or twenty-first century, or no date) is left to [env]. *)
Definition Date_toString (env : Env) (tv : option Z) : TimeString :=
  match tv with
  | Some t =>
      if YEAR_100 <=? t then TSdate (1000 * (t / 1000))
      else match reparse_early env t with
           | Some t' => TSdate t'
           | None => TSinvalid
           end
  | None => TSinvalid
  end.

(** ** The processor's state *)
Record State := mkState {
  operationsLeft : Z;
  staleIssues : list ref;
  closedIssues : list ref;
  removedLabelIssues : list ref;
  heap : gmap nat Issue;
  trace : list Call;             (* calls issued so far, oldest first *)
}.

(** The result of running an async method: it returns, or it rejects; the
    state reached is kept in both cases. *)
Inductive Outcome (A : Type) :=
| Ok (a : A) (s : State)
| Throw (s : State).
Arguments Ok {A} a s.
Arguments Throw {A} s.

Definition state_of {A} (o : Outcome A) : State :=
  match o with Ok _ s => s | Throw s => s end.

Definition M (A : Type) : Type := State -> Outcome A.

Definition ret {A} (a : A) : M A := fun s => Ok a s.

Definition bind {A B} (m : M A) (k : A -> M B) : M B :=
  fun s => match m s with
           | Ok a s' => k a s'
           | Throw s' => Throw s'
           end.

#[global] Instance M_ret : MRet M := @ret.
#[global] Instance M_bind : MBind M := fun A B k m => bind m k.

Fixpoint for_each {A} (f : A -> M unit) (l : list A) : M unit :=
  match l with
  | [] => ret tt
  | x :: l' => f x;; for_each f l'
  end.

(** *** Primitive steps *)

Definition record_call (c : Call) (s : State) : State :=
  mkState (operationsLeft s) (staleIssues s) (closedIssues s)
          (removedLabelIssues s) (heap s) (trace s ++ [c]).

(** [this.operationsLeft -= n] *)
Definition spend (n : Z) : M unit := fun s =>
  Ok tt (mkState (operationsLeft s - n) (staleIssues s) (closedIssues s)
                 (removedLabelIssues s) (heap s) (trace s)).

Definition push_stale (r : ref) : M unit := fun s =>
  Ok tt (mkState (operationsLeft s) (staleIssues s ++ [r]) (closedIssues s)
                 (removedLabelIssues s) (heap s) (trace s)).

Definition push_closed (r : ref) : M unit := fun s =>
  Ok tt (mkState (operationsLeft s) (staleIssues s) (closedIssues s ++ [r])
                 (removedLabelIssues s) (heap s) (trace s)).

Definition push_removed (r : ref) : M unit := fun s =>
  Ok tt (mkState (operationsLeft s) (staleIssues s) (closedIssues s)
                 (removedLabelIssues s ++ [r]) (heap s) (trace s)).

Definition get_operationsLeft : M Z := fun s => Ok (operationsLeft s) s.

(** Dereference an issue object.  The references a run meets are those
    of the issues its pages list; one outside the heap reads as the
    default issue. *)
Definition deref (r : ref) : M Issue := fun s => Ok (heap s !!! r) s.

Definition with_updated_at (i : Issue) (v : TimeString) : Issue :=
  mkIssue (title i) (number i) v (labels i) (pull_request i) (state i) (locked i).

(** [issue.updated_at = v] *)
Definition set_updated_at (r : ref) (v : TimeString) : M unit := fun s =>
  Ok tt (mkState (operationsLeft s) (staleIssues s) (closedIssues s)
                 (removedLabelIssues s)
                 (<[r := with_updated_at (heap s !!! r) v]> (heap s))
                 (trace s)).

(** [new Date().getTime()] *)
Definition Date_now (env : Env) : M Z := fun s =>
  Ok (clock env (trace s)) (record_call NewDate s).

(** An awaited read: the call is issued, then it resolves or rejects. *)
Definition await_read {A} (answer : list Call -> Call -> option A) (c : Call) : M A :=
  fun s => match answer (trace s) c with
           | Some a => Ok a (record_call c s)
           | None => Throw (record_call c s)
           end.

(** An awaited write. *)
Definition await_write (env : Env) (c : Call) : M unit :=
  fun s => if writes env (trace s) c
           then Ok tt (record_call c s)
           else Throw (record_call c s).

(** ** Static helpers of the class *)

(** [isLabeled]: some label of the issue compares equal to [lbl]. *)
Definition isLabeled (issue : Issue) (lbl : Str) : bool :=
  let labelComparer := fun l : Label => localeCompare_accent_is_0 lbl (name l) in
  0 <? Z.of_nat (length (List.filter labelComparer (labels issue))).

Definition is_comma (c : Char) : bool :=
  bool_decide (c = mkChar "," NoMark).

(** White space that [String.prototype.trim] strips, within the model's
    alphabet: TAB, LF, VT, FF, CR and the space. *)
Definition is_space (c : Char) : bool :=
  bool_decide (mark c = NoMark) &&
  ((9 <=? Z.of_nat (nat_of_ascii (base c))) && (Z.of_nat (nat_of_ascii (base c)) <=? 13)
   || (Z.of_nat (nat_of_ascii (base c)) =? 32)).

Fixpoint drop_space (s : Str) : Str :=
  match s with
  | c :: s' => if is_space c then drop_space s' else s
  | [] => []
  end.

Definition trim (s : Str) : Str := rev (drop_space (rev (drop_space s))).

(** [s.split(',')] *)
Fixpoint split_comma (s : Str) : list Str :=
  match s with
  | [] => [[]]
  | c :: s' =>
      if is_comma c then [] :: split_comma s'
      else match split_comma s' with
           | w :: ws => (c :: w) :: ws
           | [] => [[c]]
           end
  end.

Definition parseCommaSeparatedString (s : Str) : list Str :=
  if (Z.of_nat (length s) =? 0) then [] else trim <$> split_comma s.

(** [a || b] on an optional timestamp string. *)
Definition or_else (a : option TimeString) (b : TimeString) : TimeString :=
  match a with
  | Some t => if truthy t then t else b
  | None => b
  end.

Definition MS_PER_DAY : Z := 1000 * 60 * 60 * 24.

(** The comparison of [updatedSince], for a given reading of the clock:
    [now - new Date(timestamp).getTime() <= 1000 * 60 * 60 * 24 * num_days]. *)
Definition within_days (now : Z) (timestamp : TimeString) (num_days : Z) : bool :=
  let daysInMillis := MS_PER_DAY * num_days in
  let millisSinceLastUpdated := (fun t => now - t) <$> Date_getTime timestamp in
  match millisSinceLastUpdated with
  | Some d => d <=? daysInMillis
  | None => false                  (* NaN <= x *)
  end.

(** ** The methods of [IssueProcessor] *)
Section Processor.

Variable env : Env.
Variable options : IssueProcessorOptions.

(** The constructor, over the issue objects the run will meet. *)
Definition IssueProcessor_new (h : gmap nat Issue) : State :=
  mkState (operationsPerRun options) [] [] [] h [].

Definition updatedSince (timestamp : TimeString) (num_days : Z) : M bool :=
  now ← Date_now env;
  mret (within_days now timestamp num_days).

Definition getIssues (page : Z) : M (list ref) :=
  await_read (pages env) (ListForRepo "open" (onlyLabels options) 100 page).

Definition listIssueComments (issueNumber : Z) (sinceDate : TimeString) : M (list Comment) :=
  await_read (comments env) (ListComments issueNumber sinceDate).

Definition is_stale_labeled_event (lbl : Str) (e : IssueEvent) : bool :=
  String.eqb (event e) "labeled" && bool_decide (name (label e) = lbl).

Definition getLabelCreationDate (r : ref) (lbl : Str) : M (option TimeString) :=
  issue ← deref r;
  spend 1;;
  evs ← await_read (events env) (ListEvents 100 (number issue));
  let reversedEvents := rev evs in
  let staleLabeledEvent := List.find (is_stale_labeled_event lbl) reversedEvents in
  match staleLabeledEvent with
  | None => mret None
  | Some e => mret (Some (created_at e))
  end.

Definition is_user_comment (c : Comment) : bool :=
  String.eqb (type (user c)) "User" && negb (String.eqb (login (user c)) (actor env)).

Definition hasCommentsSince (r : ref) (sinceDate : TimeString) : M bool :=
  if negb (truthy sinceDate) then mret true
  else
    issue ← deref r;
    cs ← listIssueComments (number issue) sinceDate;
    let filteredComments := List.filter is_user_comment cs in
    mret (0 <? Z.of_nat (length filteredComments)).

Definition markStale (r : ref) (staleMessage : string) (staleLabel : Str) : M unit :=
  push_stale r;;
  spend 2;;
  let daysBeforeStaleInMillis := MS_PER_DAY * daysBeforeStale options in
  now ← Date_now env;
  let newUpdatedAtDate := TimeClip (now - daysBeforeStaleInMillis) in
  set_updated_at r (Date_toString env newUpdatedAtDate);;
  if debugOnly options then mret tt
  else
    issue ← deref r;
    await_write env (CreateComment (number issue) staleMessage);;
    await_write env (AddLabels (number issue) [staleLabel]).

Definition closeIssue (r : ref) : M unit :=
  push_closed r;;
  spend 1;;
  if debugOnly options then mret tt
  else
    issue ← deref r;
    await_write env (Update (number issue) "closed").

Definition removeLabel (r : ref) (lbl : Str) : M unit :=
  push_removed r;;
  spend 1;;
  if debugOnly options then mret tt
  else
    issue ← deref r;
    await_write env (RemoveLabel (number issue) (encodeURIComponent lbl)).

(** In [daysBeforeClose + (daysBeforeStale ?? 0)] the [?? 0] is the
    identity, [daysBeforeStale] being a number. *)
Definition processStaleIssue (r : ref) (issueType : string) (staleLabel : Str) : M unit :=
  labelDate ← getLabelCreationDate r staleLabel;
  issue ← deref r;
  let markedStaleOn := or_else labelDate (updated_at issue) in
  issueHasComments ← hasCommentsSince r markedStaleOn;
  issueHasUpdate ← updatedSince (updated_at issue)
                     (daysBeforeClose options + daysBeforeStale options);
  (if removeStaleWhenUpdated options && issueHasComments
   then removeLabel r staleLabel else mret tt : M unit);;
  if daysBeforeClose options <? 0 then mret tt
  else if negb issueHasComments && negb issueHasUpdate then closeIssue r
  else mret tt.

(** The body of the [for] loop of [processIssues]: one issue. *)
Definition processIssues_item (r : ref) : M unit :=
  issue ← deref r;
  let isPr := pull_request issue in
  let staleMessage := if isPr then stalePrMessage options else staleIssueMessage options in
  let staleLabel := if isPr then stalePrLabel options else staleIssueLabel options in
  let exemptLabels := parseCommaSeparatedString
      (if isPr then exemptPrLabels options else exemptIssueLabels options) in
  let issueType := if isPr then "pr" else "issue" in
  if String.eqb staleMessage "" then mret tt
  else if String.eqb (state issue) "closed" then mret tt
  else if locked issue then mret tt
  else if existsb (fun exemptLabel => isLabeled issue exemptLabel) exemptLabels then mret tt
  else
    let isStale := isLabeled issue staleLabel in
    updated ← updatedSince (updated_at issue) (daysBeforeStale options);
    let shouldBeStale := negb updated in
    isStale' ← (if negb isStale && shouldBeStale
                then markStale r staleMessage staleLabel;; mret true
                else mret isStale : M bool);
    if (isStale' : bool) then processStaleIssue r issueType staleLabel else mret tt.

(** One activation of [processIssues] up to its recursive call: [Some n]
    is [return n], [None] is the tail call on [page + 1]. *)
Definition processIssues_page (page : Z) : M (option Z) :=
  issues ← getIssues page;
  spend 1;;
  if Z.of_nat (length issues) <=? 0 then
    remaining ← get_operationsLeft; mret (Some remaining)
  else
    for_each processIssues_item issues;;
    remaining ← get_operationsLeft;
    if remaining <=? 0 then mret (Some 0) else mret None.

Fixpoint processIssues_fuel (fuel : nat) (page : Z) (s : State) : option (Outcome Z) :=
  match fuel with
  | O => None
  | S fuel' =>
      match processIssues_page page s with
      | Ok (Some n) s' => Some (Ok n s')
      | Ok None s' => processIssues_fuel fuel' (page + 1) s'
      | Throw s' => Some (Throw s')
      end
  end.

(** Every activation spends at least one operation and recurses only with
    operations left, so the budget bounds the depth of the recursion
    ([processIssues_fuel_driver] below). *)
Definition processIssues_depth (s : State) : nat := S (Z.to_nat (operationsLeft s)).

Definition processIssues (page : Z) (s : State) : option (Outcome Z) :=
  processIssues_fuel (processIssues_depth s) page s.

End Processor.


(** ** The local constants of the loop body, as functions of the issue *)

Definition staleMessage_of (options : IssueProcessorOptions) (issue : Issue) : string :=
  if pull_request issue then stalePrMessage options else staleIssueMessage options.

Definition staleLabel_of (options : IssueProcessorOptions) (issue : Issue) : Str :=
  if pull_request issue then stalePrLabel options else staleIssueLabel options.

Definition exemptLabels_of (options : IssueProcessorOptions) (issue : Issue) : list Str :=
  parseCommaSeparatedString
    (if pull_request issue then exemptPrLabels options else exemptIssueLabels options).

Definition issueType_of (issue : Issue) : string :=
  if pull_request issue then "pr" else "issue".

(** The four [continue] tests at the head of the loop body. *)
Definition skips (options : IssueProcessorOptions) (issue : Issue) : bool :=
  String.eqb (staleMessage_of options issue) ""
  || String.eqb (state issue) "closed"
  || locked issue
  || existsb (fun exemptLabel => isLabeled issue exemptLabel) (exemptLabels_of options issue).

(** ** The close decision, as the documentation words it *)

(** A comment by a human account other than the invoking actor. *)
Definition qualifying_comment (act : string) (c : Comment) : Prop :=
  type (user c) = "User" /\ login (user c) <> act.

(** [hasComments]: the application timestamp is empty, or one of the
    comments fetched since then qualifies. *)
Definition spec_hasComments (act : string) (appliedAt : TimeString)
           (fetched : list Comment) : Prop :=
  appliedAt = TSempty \/ Exists (qualifying_comment act) fetched.

(** [hasUpdate]: the last update lies within [close + stale] days of now. *)
Definition spec_hasUpdate (now : Z) (updated : TimeString) (close stale : Z) : Prop :=
  exists t, Date_getTime updated = Some t /\ now - t <= (close + stale) * 86400000.

Definition spec_closes (act : string) (appliedAt : TimeString) (fetched : list Comment)
           (now : Z) (updated : TimeString) (close stale : Z) : Prop :=
  0 <= close
  /\ ~ spec_hasComments act appliedAt fetched
  /\ ~ spec_hasUpdate now updated close stale.

(** ** Relations between the state before and after a computation *)

(** [m] maintains [R] between the state it starts in and the state it
    ends in, whether it returns or rejects. *)
Definition preserves (R : State -> State -> Prop) {A} (m : M A) : Prop :=
  forall s, R s (state_of (m s)).

(** The budget did not grow. *)
Definition budget_le (s s' : State) : Prop :=
  operationsLeft s' <= operationsLeft s.

(** The trace grew by calls that all satisfy [P]. *)
Definition extends_with (P : Call -> Prop) (s s' : State) : Prop :=
  exists l, trace s' = trace s ++ l /\ Forall P l.

(** A field of the state kept as it was. *)
Definition unchanged {X} (f : State -> X) (s s' : State) : Prop := f s' = f s.

(** The calls [processStaleIssue] can issue, and those one pass of the
    loop body can issue. *)
Definition stale_issue_call (c : Call) : bool :=
  match c with
  | NewDate | ListEvents _ _ | ListComments _ _ | RemoveLabel _ _ | Update _ _ => true
  | _ => false
  end.

Definition item_call (c : Call) : bool :=
  match c with
  | CreateComment _ _ | AddLabels _ _ => true
  | _ => stale_issue_call c
  end.

(** ** The batch driver, as the documentation words it

    Pages are requested one after the other; a run ends on an empty page,
    or at the end of a page once the budget is used up; a rejected call
    ends it on the spot.  The list collects the page indices requested. *)
Inductive BatchDriver (env : Env) (options : IssueProcessorOptions) :
  Z -> State -> list Z -> Outcome Z -> Prop :=
| Driver_fetch_rejected page s s1 :
    getIssues env options page s = Throw s1 ->
    BatchDriver env options page s [page] (Throw s1)
| Driver_empty_page page s s1 :
    getIssues env options page s = Ok [] s1 ->
    BatchDriver env options page s [page]
      (Ok (operationsLeft s1 - 1) (state_of (spend 1 s1)))
| Driver_item_rejected page s issues s1 s2 :
    getIssues env options page s = Ok issues s1 ->
    issues <> [] ->
    for_each (processIssues_item env options) issues (state_of (spend 1 s1)) = Throw s2 ->
    BatchDriver env options page s [page] (Throw s2)
| Driver_budget_exhausted page s issues s1 s2 :
    getIssues env options page s = Ok issues s1 ->
    issues <> [] ->
    for_each (processIssues_item env options) issues (state_of (spend 1 s1)) = Ok tt s2 ->
    operationsLeft s2 <= 0 ->
    BatchDriver env options page s [page] (Ok 0 s2)
| Driver_next_page page s issues s1 s2 pgs o :
    getIssues env options page s = Ok issues s1 ->
    issues <> [] ->
    for_each (processIssues_item env options) issues (state_of (spend 1 s1)) = Ok tt s2 ->
    0 < operationsLeft s2 ->
    BatchDriver env options (page + 1) s2 pgs o ->
    BatchDriver env options page s (page :: pgs) o.

(** The [(per_page, page)] of the page requests of a trace, in order. *)
Definition page_requests (t : list Call) : list (Z * Z) :=
  omap (fun c => match c with
                 | ListForRepo _ _ per_page page => Some (per_page, page)
                 | _ => None
                 end) t.

(** [n] consecutive page indices from [page] on. *)
Definition pages_from (page : Z) (n : nat) : list Z :=
  (fun k => page + Z.of_nat k) <$> seq 0 n.

(** The two calls of a stale transition. *)
Definition stale_transition_call (c : Call) : bool :=
  match c with
  | CreateComment _ _ | AddLabels _ _ => true
  | _ => false
  end.

(** The event that [getLabelCreationDate] looks for, as a proposition. *)
Definition labeled_with (lbl : Str) (e : IssueEvent) : Prop :=
  event e = "labeled" /\ name (label e) = lbl.

(** [a] was not created after [b], when both carry a date. *)
Definition not_after (a b : IssueEvent) : Prop :=
  forall ta tb,
    Date_getTime (created_at a) = Some ta ->
    Date_getTime (created_at b) = Some tb -> ta <= tb.

(** A history listed oldest first, the order in which GitHub returns the
    events of an issue. *)
Definition oldest_first (evs : list IssueEvent) : Prop :=
  forall pre a mid b post, evs = pre ++ a :: mid ++ b :: post -> not_after a b.

(** ** Runs in which no call is rejected *)

Definition never_rejects (env : Env) : Prop :=
  (forall h c, is_Some (pages env h c))
  /\ (forall h c, is_Some (events env h c))
  /\ (forall h c, is_Some (comments env h c))
  /\ (forall h c, writes env h c = true).

(** [m] returns from every state. *)
Definition returns {A} (m : M A) : Prop :=
  forall s, exists a s', m s = Ok a s'.

(** ** Concrete inputs used in the examples below *)

Definition e_acute : Char := mkChar "e" Acute.

(** The name "café". *)
Definition cafe_accented : Str := plain "caf" ++ [e_acute].

(** A repository with one page of issues, no events and no comments, where
    every write succeeds, and a clock that stands still at [now]. *)
Definition example_env (now : Z) (page1 : list nat) : Env :=
  mkEnv "github-actions"
        (fun _ => now)
        (fun _ c => match c with
                    | ListForRepo _ _ _ 1 => Some page1
                    | _ => Some []
                    end)
        (fun _ _ => Some [])
        (fun _ _ => Some [])
        (fun _ _ => true)
        (fun _ => None).

Definition example_options (stale close : Z) (exempt : Str) (dry : bool) :
  IssueProcessorOptions :=
  mkOptions "token" "This issue is stale" "This PR is stale" stale close
            (plain "stale") exempt (plain "stale") exempt "" 30 false dry.

Definition example_issue (updated : TimeString) (lbls : list Label) : Issue :=
  mkIssue "An issue" 7 updated lbls false "open" false.

Definition example_now : Z := 1700000000123.

(** An issue last updated a hundred days before [example_now]. *)
Definition example_old : TimeString := TSdate (example_now - 100 * 86400000).

Definition example_state (options : IssueProcessorOptions) (issue : Issue) : State :=
  IssueProcessor_new options {[ 0%nat := issue ]}.

(** ** Dry run against real run *)

Definition set_debugOnly (b : bool) (o : IssueProcessorOptions) : IssueProcessorOptions :=
  mkOptions (repoToken o) (staleIssueMessage o) (stalePrMessage o) (daysBeforeStale o)
            (daysBeforeClose o) (staleIssueLabel o) (exemptIssueLabels o) (stalePrLabel o)
            (exemptPrLabels o) (onlyLabels o) (operationsPerRun o)
            (removeStaleWhenUpdated o) b.

(** A history with the mutation calls taken out. *)
Definition reads_only (h : list Call) : list Call :=
  List.filter (fun c => negb (is_mutation c)) h.

(** The clock and the read calls answer as they would had no mutation call
    been issued: the dry run and the real run are given the same inputs. *)
Definition oblivious_to_writes (env : Env) : Prop :=
  (forall h, clock env h = clock env (reads_only h))
  /\ (forall h c, pages env h c = pages env (reads_only h) c)
  /\ (forall h c, events env h c = events env (reads_only h) c)
  /\ (forall h c, comments env h c = comments env (reads_only h) c).

Definition writes_succeed (env : Env) : Prop :=
  forall h c, writes env h c = true.

(** [sd] is to the dry run what [sw] is to the real run: same budget, same
    bookkeeping, same issue objects, and the same calls but the mutations. *)
Definition dry_of (sd sw : State) : Prop :=
  operationsLeft sd = operationsLeft sw
  /\ staleIssues sd = staleIssues sw
  /\ closedIssues sd = closedIssues sw
  /\ removedLabelIssues sd = removedLabelIssues sw
  /\ heap sd = heap sw
  /\ trace sd = reads_only (trace sw).

Definition same_result {A} (od ow : Outcome A) : Prop :=
  match od, ow with
  | Ok a sd, Ok b sw => a = b /\ dry_of sd sw
  | Throw sd, Throw sw => dry_of sd sw
  | _, _ => False
  end.

Definition simulates {A} (md mw : M A) : Prop :=
  forall sd sw, dry_of sd sw -> same_result (md sd) (mw sw).

(** A step of the real run that the dry run does not take and cannot see. *)
Definition silent {A} (mw : M A) : Prop :=
  forall sd sw, dry_of sd sw -> exists a sw', mw sw = Ok a sw' /\ dry_of sd sw'.

(** The worked examples: sixty days to stale, seven to close unless said
    otherwise, one issue at reference [0]. *)
Definition ex_env : Env := example_env example_now [0%nat].

Definition ex_options : IssueProcessorOptions := example_options 60 7 [] false.

(** An old issue without labels. *)
Definition ex_state : State :=
  example_state ex_options (example_issue example_old []).

(** Closing at once: [daysBeforeClose = 0]. *)
Definition ex_options_close0 : IssueProcessorOptions := example_options 60 0 [] false.

(** "cafe" is exempt and the old issue is labelled "café". *)
Definition ex_options_cafe : IssueProcessorOptions :=
  example_options 60 7 (plain "cafe") false.

Definition ex_issue_cafe : Issue := example_issue example_old [mkLabel cafe_accented].

Definition ex_state_cafe : State := example_state ex_options_cafe ex_issue_cafe.

(** "Cafe" is exempt too, up to case. *)
Definition ex_state_Cafe : State :=
  example_state ex_options_cafe (example_issue example_old [mkLabel (plain "Cafe")]).

(** An issue that carries the stale label, with a label history that
    records when: once as "Stale", later as "stale". *)
Definition ex_issue_stale : Issue := example_issue example_old [mkLabel (plain "stale")].

Definition ex_state_stale : State := example_state ex_options ex_issue_stale.

Definition ex_history : list IssueEvent :=
  [ mkIssueEvent (TSdate 1000) "labeled" (mkLabel (plain "stale"));
    mkIssueEvent (TSdate 2000) "labeled" (mkLabel (plain "Stale"));
    mkIssueEvent (TSdate 3000) "labeled" (mkLabel (plain "stale"));
    mkIssueEvent (TSdate 4000) "unlabeled" (mkLabel (plain "stale")) ].

Definition ex_env_history : Env :=
  mkEnv "github-actions" (fun _ => example_now)
        (fun _ _ => Some []) (fun _ _ => Some ex_history)
        (fun _ _ => Some []) (fun _ _ => true) (fun _ => None).

(** A repository that records what the run does to it, and keeps the
    comments apart by date: once a label has been added, the history of
    events shows it, applied at [example_now]; a human commented thirty
    days before [example_now], and [issues.listComments] returns that
    comment when asked for the comments since an earlier date. *)
Definition is_add_labels (c : Call) : bool :=
  match c with AddLabels _ _ => true | _ => false end.

Definition ex_env_recording : Env :=
  mkEnv "github-actions" (fun _ => example_now)
        (fun _ c => match c with
                    | ListForRepo _ _ _ 1 => Some [0%nat]
                    | _ => Some []
                    end)
        (fun h _ => if existsb is_add_labels h
                    then Some [mkIssueEvent (TSdate example_now) "labeled"
                                 (mkLabel (plain "stale"))]
                    else Some [])
        (fun _ c => match c with
                    | ListComments _ (TSdate t) =>
                        if t <? example_now - 30 * 86400000
                        then Some [mkComment (mkUser "User" "octocat")]
                        else Some []
                    | _ => Some []
                    end)
        (fun _ _ => true)
        (fun _ => None).

(** Two old issues on the first page and a budget of one operation. *)
Definition ex_env_two : Env := example_env example_now [0%nat; 1%nat].

Definition ex_options_budget1 : IssueProcessorOptions :=
  mkOptions "token" "This issue is stale" "This PR is stale" 60 7
            (plain "stale") [] (plain "stale") [] "" 1 false false.

Definition ex_state_two : State :=
  IssueProcessor_new ex_options_budget1
    (<[ 1%nat := mkIssue "Another issue" 8 example_old [] false "open" false ]>
       {[ 0%nat := example_issue example_old [] ]}).

(** ** Further notions used in the properties of the methods *)

(** [parts.join(',')] *)
Fixpoint join_comma (parts : list Str) : Str :=
  match parts with
  | [] => []
  | [w] => w
  | w :: rest => w ++ mkChar "," NoMark :: join_comma rest
  end.

(** A stale issue on which a bot and a human have commented since the
    label was applied. *)
Definition ex_comments : list Comment :=
  [ mkComment (mkUser "Bot" "dependabot"); mkComment (mkUser "User" "octocat") ].

Definition ex_env_human : Env :=
  mkEnv "github-actions" (fun _ => example_now)
        (fun _ _ => Some []) (fun _ _ => Some ex_history)
        (fun _ _ => Some ex_comments) (fun _ _ => true) (fun _ => None).

(** Two names that differ in the case of their letters only: character
    by character, the same base letter up to case and the same mark. *)
Definition same_letter_up_to_case (c d : Char) : Prop :=
  to_lower (base c) = to_lower (base d) /\ mark c = mark d.

Definition same_up_to_case (a b : Str) : Prop :=
  Forall2 same_letter_up_to_case a b.

(** U+0001, a control character. *)
Definition SOH : Char := mkChar "001" NoMark.

(** The same history and comments, for the stale issue listed on the
    first page. *)
Definition ex_env_commented : Env :=
  mkEnv "github-actions" (fun _ => example_now)
        (fun _ c => match c with
                    | ListForRepo _ _ _ 1 => Some [0%nat]
                    | _ => Some []
                    end)
        (fun _ _ => Some ex_history)
        (fun _ _ => Some ex_comments) (fun _ _ => true) (fun _ => None).

(** [removeStaleWhenUpdated] set. *)
Definition ex_options_unstale : IssueProcessorOptions :=
  mkOptions "token" "This issue is stale" "This PR is stale" 60 7
            (plain "stale") [] (plain "stale") [] "" 30 true false.

Definition is_update (c : Call) : bool :=
  match c with Update _ _ => true | _ => false end.

Definition is_remove_label (c : Call) : bool :=
  match c with RemoveLabel _ _ => true | _ => false end.

(** A list-valued field of the state that was only appended to. *)
Definition grows {X} (f : State -> list X) (s s' : State) : Prop :=
  f s `prefix_of` f s'.

(** The reads that are charged to the budget. *)
Definition charged_read (c : Call) : bool :=
  match c with
  | ListForRepo _ _ _ _ | ListEvents _ _ => true
  | _ => false
  end.

Definition count_calls (f : Call -> bool) (t : list Call) : Z :=
  Z.of_nat (length (List.filter f t)).

(** What a state shows to have been paid for: two operations per issue
    marked stale, one per issue closed, one per label removed, one per page
    request and per label history in the trace. *)
Definition spent (s : State) : Z :=
  2 * Z.of_nat (length (staleIssues s))
  + Z.of_nat (length (closedIssues s))
  + Z.of_nat (length (removedLabelIssues s))
  + count_calls charged_read (trace s).

Definition account (s : State) : Z := operationsLeft s + spent s.

(** The shape of the calls a processor configured with [options] issues. *)
Definition well_formed_call (options : IssueProcessorOptions) (c : Call) : Prop :=
  match c with
  | NewDate => True
  | ListForRepo st lbls per_page _ =>
      st = "open" /\ lbls = onlyLabels options /\ per_page = 100
  | ListEvents per_page _ => per_page = 100
  | ListComments _ since => truthy since = true
  | CreateComment _ body =>
      body <> "" /\ (body = stalePrMessage options \/ body = staleIssueMessage options)
  | AddLabels _ lbls =>
      lbls = [stalePrLabel options] \/ lbls = [staleIssueLabel options]
  | Update _ st => st = "closed"
  | RemoveLabel _ lbl =>
      lbl = encodeURIComponent (stalePrLabel options)
      \/ lbl = encodeURIComponent (staleIssueLabel options)
  end.

(** Closing disabled, and the real run of the worked example. *)
Definition ex_options_noclose : IssueProcessorOptions := example_options 60 (-1) [] false.

Definition ex_options_dry : IssueProcessorOptions := example_options 60 0 [] true.


(** ** Reasoning about monadic code *)

Lemma bind_Ok {A B} (m : M A) (k : A -> M B) s a s' :
  m s = Ok a s' -> (m ≫= k) s = k a s'.
Proof. intros H. unfold mbind, M_bind, bind. now rewrite H. Qed.

Lemma bind_Throw {A B} (m : M A) (k : A -> M B) s s' :
  m s = Throw s' -> (m ≫= k) s = Throw s'.
Proof. intros H. unfold mbind, M_bind, bind. now rewrite H. Qed.

(** A relation between the state before and the state after that every
    step of a computation maintains, whether it returns or rejects. *)
Section Preserves.

Context (R : State -> State -> Prop) `{!Reflexive R, !Transitive R}.

Lemma preserves_ret {A} (a : A) : preserves R (mret a).
Proof. intros s. simpl. reflexivity. Qed.

Lemma preserves_bind {A B} (m : M A) (k : A -> M B) :
  preserves R m -> (forall a, preserves R (k a)) -> preserves R (m ≫= k).
Proof.
  intros Hm Hk s. unfold mbind, M_bind, bind.
  specialize (Hm s). destruct (m s) as [a s1|s1]; simpl in *.
  - etransitivity; [exact Hm | apply Hk].
  - exact Hm.
Qed.

Lemma preserves_for_each {A} (f : A -> M unit) (l : list A) :
  (forall x, preserves R (f x)) -> preserves R (for_each f l).
Proof.
  intros Hf. induction l as [|x l IH]; simpl.
  - apply preserves_ret.
  - apply preserves_bind; [apply Hf | intros _; exact IH].
Qed.

Lemma preserves_deref r : preserves R (deref r).
Proof. intros s. simpl. reflexivity. Qed.

Lemma preserves_get_operationsLeft : preserves R get_operationsLeft.
Proof. intros s. simpl. reflexivity. Qed.

End Preserves.

(** Breaks a goal [preserves R m] down along the structure of [m]; what is
    left are the primitive steps that touch the state. *)
Ltac preserves_step :=
  lazymatch goal with
  | |- preserves _ (mret _) => apply preserves_ret; typeclasses eauto
  | |- preserves _ (deref _) => apply preserves_deref; typeclasses eauto
  | |- preserves _ get_operationsLeft =>
      apply preserves_get_operationsLeft; typeclasses eauto
  | |- preserves _ (_ ≫= _) =>
      apply preserves_bind; try typeclasses eauto; [| intros ?]
  | |- preserves _ (for_each _ _) =>
      apply preserves_for_each; try typeclasses eauto; intros ?
  | |- preserves _ (if ?b then _ else _) => destruct b
  | |- preserves _ (match ?o with _ => _ end) => destruct o
  end.

(** *** The budget never grows *)

#[global] Instance budget_le_refl : Reflexive budget_le.
Proof. intros s. unfold budget_le. lia. Qed.

#[global] Instance budget_le_trans : Transitive budget_le.
Proof. intros a b c. unfold budget_le. lia. Qed.

(** *** What is added to the trace *)

#[global] Instance extends_with_refl P : Reflexive (extends_with P).
Proof. intros s. exists []. split; [now rewrite app_nil_r | constructor]. Qed.

#[global] Instance extends_with_trans P : Transitive (extends_with P).
Proof.
  intros a b c [l1 [H1 F1]] [l2 [H2 F2]]. exists (l1 ++ l2). split.
  - rewrite H2, H1. now rewrite app_assoc.
  - apply Forall_app; split; assumption.
Qed.

Section Budget.

Variable env : Env.
Variable options : IssueProcessorOptions.

Lemma budget_spend n : 0 <= n -> preserves budget_le (spend n).
Proof. intros Hn s. unfold budget_le. simpl. lia. Qed.

Lemma budget_push_stale r : preserves budget_le (push_stale r).
Proof. intros s. unfold budget_le. simpl. lia. Qed.

Lemma budget_push_closed r : preserves budget_le (push_closed r).
Proof. intros s. unfold budget_le. simpl. lia. Qed.

Lemma budget_push_removed r : preserves budget_le (push_removed r).
Proof. intros s. unfold budget_le. simpl. lia. Qed.

Lemma budget_set_updated_at r v : preserves budget_le (set_updated_at r v).
Proof. intros s. unfold budget_le. simpl. lia. Qed.

Lemma budget_Date_now : preserves budget_le (Date_now env).
Proof. intros s. unfold budget_le. simpl. lia. Qed.

Lemma budget_await_read {A} (f : list Call -> Call -> option A) c :
  preserves budget_le (await_read f c).
Proof. intros s. unfold budget_le, await_read. destruct (f _ _); simpl; lia. Qed.

Lemma budget_await_write c : preserves budget_le (await_write env c).
Proof. intros s. unfold budget_le, await_write. destruct (writes _ _ _); simpl; lia. Qed.

Ltac budget_go :=
  repeat first
    [ preserves_step
    | apply budget_spend; lia
    | apply budget_push_stale | apply budget_push_closed | apply budget_push_removed
    | apply budget_set_updated_at | apply budget_Date_now
    | apply budget_await_read | apply budget_await_write ].

Lemma budget_updatedSince ts d : preserves budget_le (updatedSince env ts d).
Proof. unfold updatedSince. budget_go. Qed.

Lemma budget_markStale r m l : preserves budget_le (markStale env options r m l).
Proof. unfold markStale. budget_go. Qed.

Lemma budget_closeIssue r : preserves budget_le (closeIssue env options r).
Proof. unfold closeIssue. budget_go. Qed.

Lemma budget_removeLabel r l : preserves budget_le (removeLabel env options r l).
Proof. unfold removeLabel. budget_go. Qed.

Lemma budget_getLabelCreationDate r l : preserves budget_le (getLabelCreationDate env r l).
Proof. unfold getLabelCreationDate. budget_go. Qed.

Lemma budget_hasCommentsSince r d : preserves budget_le (hasCommentsSince env r d).
Proof. unfold hasCommentsSince, listIssueComments. budget_go. Qed.

Lemma budget_processStaleIssue r t l :
  preserves budget_le (processStaleIssue env options r t l).
Proof.
  unfold processStaleIssue.
  repeat first
    [ apply budget_getLabelCreationDate | apply budget_hasCommentsSince
    | apply budget_updatedSince | apply budget_removeLabel | apply budget_closeIssue
    | preserves_step ].
Qed.

Lemma budget_processIssues_item r : preserves budget_le (processIssues_item env options r).
Proof.
  unfold processIssues_item.
  repeat first
    [ apply budget_processStaleIssue | apply budget_markStale | apply budget_updatedSince
    | preserves_step ].
Qed.

End Budget.

(** *** Calls added to the trace *)

Section Trace.

Variable env : Env.
Variable options : IssueProcessorOptions.
Variable P : Call -> Prop.

Lemma trace_spend n : preserves (extends_with P) (spend n).
Proof. intros s. exists []. simpl. now rewrite app_nil_r. Qed.

Lemma trace_push_stale r : preserves (extends_with P) (push_stale r).
Proof. intros s. exists []. simpl. now rewrite app_nil_r. Qed.

Lemma trace_push_closed r : preserves (extends_with P) (push_closed r).
Proof. intros s. exists []. simpl. now rewrite app_nil_r. Qed.

Lemma trace_push_removed r : preserves (extends_with P) (push_removed r).
Proof. intros s. exists []. simpl. now rewrite app_nil_r. Qed.

Lemma trace_set_updated_at r v : preserves (extends_with P) (set_updated_at r v).
Proof. intros s. exists []. simpl. now rewrite app_nil_r. Qed.

Lemma trace_Date_now : P NewDate -> preserves (extends_with P) (Date_now env).
Proof. intros HP s. exists [NewDate]. simpl. split; [reflexivity | repeat constructor; exact HP]. Qed.

Lemma trace_await_read {A} (f : list Call -> Call -> option A) c :
  P c -> preserves (extends_with P) (await_read f c).
Proof.
  intros HP s. exists [c]. unfold await_read.
  destruct (f _ _); simpl; (split; [reflexivity | repeat constructor; exact HP]).
Qed.

Lemma trace_await_write c : P c -> preserves (extends_with P) (await_write env c).
Proof.
  intros HP s. exists [c]. unfold await_write.
  destruct (writes _ _ _); simpl; (split; [reflexivity | repeat constructor; exact HP]).
Qed.

End Trace.

Ltac trace_go :=
  repeat first
    [ preserves_step
    | apply trace_spend | apply trace_push_stale | apply trace_push_closed
    | apply trace_push_removed | apply trace_set_updated_at
    | apply trace_Date_now; reflexivity
    | apply trace_await_read; reflexivity
    | apply trace_await_write; reflexivity ].

Section TraceOfMethods.

Variable env : Env.
Variable options : IssueProcessorOptions.

Lemma trace_processStaleIssue r t l :
  preserves (extends_with (fun c => stale_issue_call c = true))
            (processStaleIssue env options r t l).
Proof.
  unfold processStaleIssue, getLabelCreationDate, hasCommentsSince,
    listIssueComments, updatedSince, removeLabel, closeIssue.
  trace_go.
Qed.

Lemma stale_issue_call_item_call c : stale_issue_call c = true -> item_call c = true.
Proof. destruct c; simpl; congruence. Qed.

Lemma extends_with_weaken (P Q : Call -> Prop) s s' :
  (forall c, P c -> Q c) -> extends_with P s s' -> extends_with Q s s'.
Proof.
  intros HPQ [l [Hl HF]]. exists l. split; [exact Hl|].
  eapply Forall_impl; [exact HF | exact HPQ].
Qed.

Lemma trace_processIssues_item r :
  preserves (extends_with (fun c => item_call c = true))
            (processIssues_item env options r).
Proof.
  unfold processIssues_item, markStale, updatedSince.
  repeat first
    [ (intros s; eapply extends_with_weaken;
       [exact stale_issue_call_item_call | apply trace_processStaleIssue])
    | preserves_step
    | apply trace_spend | apply trace_push_stale | apply trace_set_updated_at
    | apply trace_Date_now; reflexivity
    | apply trace_await_write; reflexivity ].
Qed.

Lemma page_requests_app a b : page_requests (a ++ b) = page_requests a ++ page_requests b.
Proof. unfold page_requests. apply omap_app. Qed.

Lemma page_requests_item_calls l :
  Forall (fun c => item_call c = true) l -> page_requests l = [].
Proof.
  induction 1 as [|c l Hc _ IH]; [reflexivity|].
  destruct c; simpl in Hc; try discriminate; exact IH.
Qed.

End TraceOfMethods.

(** ** The batch driver *)

Section Driver.

Variable env : Env.
Variable options : IssueProcessorOptions.

Lemma getIssues_state page s :
  state_of (getIssues env options page s) =
  record_call (ListForRepo "open" (onlyLabels options) 100 page) s.
Proof. unfold getIssues, await_read. destruct (pages _ _ _); reflexivity. Qed.

Lemma for_each_items_budget issues s :
  operationsLeft (state_of (for_each (processIssues_item env options) issues s))
  <= operationsLeft s.
Proof.
  apply (preserves_for_each budget_le).
  intros r. apply budget_processIssues_item.
Qed.

Lemma for_each_items_trace issues s :
  page_requests (trace (state_of (for_each (processIssues_item env options) issues s)))
  = page_requests (trace s).
Proof.
  destruct (preserves_for_each (extends_with (fun c => item_call c = true))
              (processIssues_item env options) issues
              (trace_processIssues_item env options) s) as [l [Hl HF]].
  rewrite Hl, page_requests_app, (page_requests_item_calls l HF).
  apply app_nil_r.
Qed.

(** One activation of [processIssues], case by case. *)
Lemma processIssues_page_cases page s :
  match getIssues env options page s with
  | Throw s1 => processIssues_page env options page s = Throw s1
  | Ok [] s1 =>
      processIssues_page env options page s
      = Ok (Some (operationsLeft s1 - 1)) (state_of (spend 1 s1))
  | Ok issues s1 =>
      match for_each (processIssues_item env options) issues (state_of (spend 1 s1)) with
      | Throw s2 => processIssues_page env options page s = Throw s2
      | Ok _ s2 =>
          processIssues_page env options page s
          = if operationsLeft s2 <=? 0 then Ok (Some 0) s2 else Ok None s2
      end
  end.
Proof.
  unfold processIssues_page, mbind, M_bind, bind.
  destruct (getIssues env options page s) as [issues s1|s1]; [|reflexivity].
  destruct issues as [|r issues]; [reflexivity|].
  cbn [spend state_of length].
  replace (Z.of_nat (S (length issues)) <=? 0) with false by (symmetry; apply Z.leb_gt; lia).
  match goal with |- match ?m with _ => _ end => destruct m as [[] s2|s2] end;
    [|reflexivity].
  unfold get_operationsLeft. destruct (operationsLeft s2 <=? 0); reflexivity.
Qed.

Lemma pages_from_cons page n : pages_from page (S n) = page :: pages_from (page + 1) n.
Proof.
  unfold pages_from. simpl. f_equal; [lia|].
  rewrite <- seq_shift, <- list_fmap_compose.
  apply list_fmap_ext. intros _ k _. simpl. lia.
Qed.

Lemma pages_from_one page : pages_from page 1 = [page].
Proof. unfold pages_from. cbn. now rewrite Z.add_0_r. Qed.

Lemma processIssues_fuel_driver fuel : forall page s,
  (Z.to_nat (operationsLeft s) < fuel)%nat ->
  exists pgs o,
    processIssues_fuel env options fuel page s = Some o
    /\ BatchDriver env options page s pgs o
    /\ pgs = pages_from page (length pgs) /\ pgs <> []
    /\ page_requests (trace (state_of o))
       = page_requests (trace s) ++ ((fun p => (100, p)) <$> pgs).
Proof.
  induction fuel as [|fuel IH]; intros page s Hfuel; [lia|].
  pose proof (processIssues_page_cases page s) as Hcases.
  pose proof (getIssues_state page s) as Hget.
  cbn [processIssues_fuel].
  destruct (getIssues env options page s) as [issues s1|s1] eqn:Eget; cbn [state_of] in Hget.
  2:{ rewrite Hcases. exists [page], (Throw s1). split_and!.
      - reflexivity.
      - now constructor.
      - symmetry. apply pages_from_one.
      - discriminate.
      - subst s1. simpl. now rewrite page_requests_app. }
  destruct issues as [|r issues].
  { rewrite Hcases. exists [page], (Ok (operationsLeft s1 - 1) (state_of (spend 1 s1))).
    split_and!.
    - reflexivity.
    - now constructor.
    - symmetry. apply pages_from_one.
    - discriminate.
    - subst s1. simpl. now rewrite page_requests_app. }
  pose proof (for_each_items_budget (r :: issues) (state_of (spend 1 s1))) as Hb.
  pose proof (for_each_items_trace (r :: issues) (state_of (spend 1 s1))) as Ht.
  destruct (for_each (processIssues_item env options) (r :: issues) (state_of (spend 1 s1)))
    as [[] s2|s2] eqn:Eitems; cbn [state_of] in Hb, Ht; rewrite Hcases.
  2:{ exists [page], (Throw s2). split_and!.
      - reflexivity.
      - eapply Driver_item_rejected; eauto; discriminate.
      - symmetry. apply pages_from_one.
      - discriminate.
      - cbn [state_of]. rewrite Ht. subst s1. simpl. now rewrite page_requests_app. }
  destruct (operationsLeft s2 <=? 0) eqn:Eleft.
  { apply Z.leb_le in Eleft. exists [page], (Ok 0 s2). split_and!.
    - reflexivity.
    - eapply Driver_budget_exhausted; eauto; discriminate.
    - symmetry. apply pages_from_one.
    - discriminate.
    - cbn [state_of]. rewrite Ht. subst s1. simpl. now rewrite page_requests_app. }
  apply Z.leb_gt in Eleft.
  assert (Hs1 : operationsLeft s1 = operationsLeft s) by (subst s1; reflexivity).
  simpl in Hb.
  destruct (IH (page + 1) s2) as (pgs & o & Hrun & Hdrv & Hpgs & Hne & Htr); [lia|].
  exists (page :: pgs), o. split_and!.
  - exact Hrun.
  - eapply Driver_next_page; eauto; discriminate.
  - cbn [length]. rewrite pages_from_cons. now f_equal.
  - discriminate.
  - rewrite Htr, Ht. subst s1. simpl. rewrite page_requests_app. simpl.
    now rewrite <- app_assoc.
Qed.

(** C2. Every run of the batch driver returns: it requests the pages
    [page], [page + 1], ... in this order, 100 issues per page, and behaves
    as [BatchDriver] says: a page request that resolves costs one
    operation; the run stops on the first empty page, or after the loop
    over a non-empty page has run to its end with no operations left, and
    otherwise goes on with the next page. *)
Theorem processIssues_batch_driver page s :
  exists pgs o,
    processIssues env options page s = Some o
    /\ BatchDriver env options page s pgs o
    /\ pgs = pages_from page (length pgs) /\ pgs <> []
    /\ page_requests (trace (state_of o))
       = page_requests (trace s) ++ ((fun p => (100, p)) <$> pgs).
Proof.
  unfold processIssues, processIssues_depth.
  apply processIssues_fuel_driver. lia.
Qed.

End Driver.

(** ** Label matching *)

Lemma isLabeled_iff issue lbl :
  isLabeled issue lbl = true <->
  exists l, In l (labels issue) /\ localeCompare_accent_is_0 lbl (name l) = true.
Proof.
  unfold isLabeled. rewrite Z.ltb_lt.
  induction (labels issue) as [|l ls IH]; simpl.
  - split; [lia | intros [l [[] _]]].
  - destruct (localeCompare_accent_is_0 lbl (name l)) eqn:E; simpl.
    + split; [intros _; exists l; auto | lia].
    + rewrite IH. split.
      * intros [l' [Hin Hl']]. exists l'. auto.
      * intros [l' [[->|Hin] Hl']]; [congruence | exists l'; auto].
Qed.

(** The sort key of a name is its folded text taken apart into letters
    and outline. *)
Lemma sort_key_accent_folded s :
  sort_key_accent s = (letters (folded s), outline (folded s)).
Proof.
  unfold sort_key_accent, folded, letters, outline. cbv zeta.
  induction (code_points s) as [|x l IH]; [reflexivity|].
  injection IH as IH1 IH2.
  cbn [flat_map List.filter]. rewrite omap_app, fmap_app, IH1, IH2.
  destruct x as [c|m]; cbn [collation_elements visible];
    [destruct (is_control c)|]; reflexivity.
Qed.

(** A text is determined by its letters and its outline. *)
Lemma letters_outline_inj n1 : forall n2,
  letters n1 = letters n2 -> outline n1 = outline n2 -> n1 = n2.
Proof.
  unfold letters, outline.
  induction n1 as [|x n1 IH]; intros [|y n2] Hl Ho; try discriminate; [reflexivity|].
  cbn [fmap list_fmap] in Ho. injection Ho as Hxy Ho.
  destruct x as [c|m], y as [d|k]; try discriminate; cbn [omap] in Hl.
  - injection Hl as -> Hl. f_equal. now apply IH.
  - injection Hxy as ->. f_equal. now apply IH.
Qed.

Lemma localeCompare_accent_is_0_spec a b :
  localeCompare_accent_is_0 a b = true <-> equal_ignoring_case a b.
Proof.
  unfold localeCompare_accent_is_0, equal_ignoring_case.
  rewrite bool_decide_eq_true, !sort_key_accent_folded. split.
  - intros [= Hl Ho]. now apply letters_outline_inj.
  - now intros ->.
Qed.

Lemma isLabeled_equal_ignoring_case issue lbl :
  isLabeled issue lbl = true <->
  exists l, In l (labels issue) /\ equal_ignoring_case lbl (name l).
Proof.
  rewrite isLabeled_iff.
  split; intros [l [Hin Hl]]; exists l; split; auto;
    now apply localeCompare_accent_is_0_spec.
Qed.


(** A label carried verbatim is found. *)
Lemma isLabeled_exact issue lbl :
  In (mkLabel lbl) (labels issue) -> isLabeled issue lbl = true.
Proof.
  intros Hin. apply isLabeled_equal_ignoring_case.
  exists (mkLabel lbl). split; [exact Hin | reflexivity].
Qed.

(** ** The label history *)

Lemma find_app {A} (f : A -> bool) (l1 l2 : list A) :
  List.find f (l1 ++ l2) =
  match List.find f l1 with
  | Some x => Some x
  | None => List.find f l2
  end.
Proof.
  induction l1 as [|a l1 IH]; simpl; [reflexivity|].
  destruct (f a); [reflexivity | exact IH].
Qed.

Lemma find_rev {A} (f : A -> bool) (l : list A) :
  match List.find f (rev l) with
  | None => Forall (fun x => f x = false) l
  | Some x => exists pre post,
      l = pre ++ x :: post /\ f x = true /\ Forall (fun y => f y = false) post
  end.
Proof.
  induction l as [|a l IH]; simpl; [constructor|].
  destruct (List.find f (rev l)) as [x|] eqn:E.
  - rewrite find_app, E.
    destruct IH as (pre & post & -> & Hx & Hpost).
    exists (a :: pre), post. auto.
  - rewrite find_app, E. simpl.
    destruct (f a) eqn:Ea.
    + exists [], l. auto.
    + constructor; assumption.
Qed.

Lemma is_stale_labeled_event_spec lbl e :
  is_stale_labeled_event lbl e = true <-> labeled_with lbl e.
Proof.
  unfold is_stale_labeled_event, labeled_with.
  rewrite andb_true_iff, String.eqb_eq, bool_decide_eq_true. reflexivity.
Qed.

Lemma is_stale_labeled_event_false lbl e :
  is_stale_labeled_event lbl e = false <-> ~ labeled_with lbl e.
Proof.
  rewrite <- is_stale_labeled_event_spec.
  destruct (is_stale_labeled_event lbl e); split; congruence.
Qed.

Lemma oldest_first_before evs pre e post :
  oldest_first evs -> evs = pre ++ e :: post -> Forall (fun e' => not_after e' e) pre.
Proof.
  intros Hsorted ->. apply List.Forall_forall. intros e' Hin.
  apply in_split in Hin. destruct Hin as (p1 & p2 & ->).
  apply (Hsorted p1 e' p2 e post). now rewrite <- app_assoc.
Qed.

(** C10. When the label history resolves, [getLabelCreationDate] returns
    the [created_at] of the last event of the history that is a
    ["labeled"] event whose label name is the searched name, character for
    character; in a history listed oldest first no such event is more
    recent.  It returns [undefined] when the history has no such event. *)
Theorem getLabelCreationDate_last_labeled env r lbl s evs :
  events env (trace s) (ListEvents 100 (number (heap s !!! r))) = Some evs ->
  exists res s',
    getLabelCreationDate env r lbl s = Ok res s'
    /\ ((res = None /\ Forall (fun e => ~ labeled_with lbl e) evs)
        \/ (exists pre e post,
              evs = pre ++ e :: post
              /\ labeled_with lbl e
              /\ Forall (fun e' => ~ labeled_with lbl e') post
              /\ (oldest_first evs -> Forall (fun e' => not_after e' e) pre)
              /\ res = Some (created_at e))).
Proof.
  intros Hev.
  unfold getLabelCreationDate, mbind, M_bind, bind, deref, spend, await_read.
  cbn [trace heap]. rewrite Hev.
  pose proof (find_rev (is_stale_labeled_event lbl) evs) as Hfind.
  destruct (List.find (is_stale_labeled_event lbl) (rev evs)) as [e|].
  - destruct Hfind as (pre & post & -> & He & Hpost).
    eexists _, _. split; [reflexivity|]. right.
    exists pre, e, post. split_and!; auto.
    + now apply is_stale_labeled_event_spec.
    + eapply Forall_impl; [exact Hpost|].
      intros e'. apply is_stale_labeled_event_false.
    + intros Hsorted. now apply (oldest_first_before _ pre e post Hsorted).
  - eexists _, _. split; [reflexivity|]. left. split; [reflexivity|].
    eapply Forall_impl; [exact Hfind|].
    intros e'. apply is_stale_labeled_event_false.
Qed.

(** ** The operation budget *)

Section BudgetAccounting.

Variable env : Env.
Variable options : IssueProcessorOptions.

(** The writes and the label history are charged before the call is
    awaited, whatever becomes of it. *)
Lemma markStale_spends_2 r m l s :
  operationsLeft (state_of (markStale env options r m l s)) = operationsLeft s - 2.
Proof.
  unfold markStale, mbind, M_bind, bind, await_write. simpl.
  destruct (debugOnly options); simpl; [reflexivity|].
  repeat (match goal with |- context [writes ?e ?h ?c] => destruct (writes e h c) end; simpl);
    reflexivity.
Qed.

Lemma closeIssue_spends_1 r s :
  operationsLeft (state_of (closeIssue env options r s)) = operationsLeft s - 1.
Proof.
  unfold closeIssue, mbind, M_bind, bind, await_write. simpl.
  destruct (debugOnly options); simpl; [reflexivity|].
  destruct (writes _ _ _); reflexivity.
Qed.

Lemma removeLabel_spends_1 r l s :
  operationsLeft (state_of (removeLabel env options r l s)) = operationsLeft s - 1.
Proof.
  unfold removeLabel, mbind, M_bind, bind, await_write. simpl.
  destruct (debugOnly options); simpl; [reflexivity|].
  destruct (writes _ _ _); reflexivity.
Qed.

Lemma getLabelCreationDate_spends_1 r l s :
  operationsLeft (state_of (getLabelCreationDate env r l s)) = operationsLeft s - 1.
Proof.
  unfold getLabelCreationDate, mbind, M_bind, bind, await_read. simpl.
  destruct (events _ _ _); simpl; [|reflexivity].
  destruct (List.find _ _); reflexivity.
Qed.

(** A page request is charged once it has resolved: a rejected one leaves
    the budget as it was. *)
Lemma page_fetch_charged_after_await page s :
  operationsLeft (state_of (processIssues_page env options page s)) =
  match pages env (trace s) (ListForRepo "open" (onlyLabels options) 100 page) with
  | Some [] => operationsLeft s - 1
  | Some issues =>
      operationsLeft (state_of (for_each (processIssues_item env options) issues
                                  (state_of (spend 1 (state_of (getIssues env options page s))))))
  | None => operationsLeft s
  end.
Proof.
  pose proof (processIssues_page_cases env options page s) as H.
  unfold getIssues, await_read in *.
  destruct (pages _ _ _) as [[|r issues]|]; cbn [state_of] in *.
  - now rewrite H.
  - match type of H with match ?m with _ => _ end =>
      destruct m as [[] s2|s2] eqn:E end; rewrite H; [|reflexivity].
    destruct (_ <=? _); reflexivity.
  - now rewrite H.
Qed.

(** C1. The fetch of the comments since a date is issued without any
    charge to the budget: [hasCommentsSince] leaves [operationsLeft] as it
    found it, while it adds the [listComments] call to the trace whenever
    the date is a non-empty string. *)
Theorem hasCommentsSince_costs_nothing r sinceDate s :
  let s' := state_of (hasCommentsSince env r sinceDate s) in
  operationsLeft s' = operationsLeft s
  /\ trace s' = trace s ++
       (if truthy sinceDate
        then [ListComments (number (heap s !!! r)) sinceDate] else []).
Proof.
  unfold hasCommentsSince, listIssueComments, mbind, M_bind, bind, await_read.
  destruct (truthy sinceDate); simpl.
  - destruct (comments _ _ _); simpl; auto.
  - now rewrite app_nil_r.
Qed.

End BudgetAccounting.

(** ** Issues the loop passes over *)

Lemma existsb_isLabeled issue exempt :
  existsb (fun e => isLabeled issue e) exempt = true <->
  exists e l, In e exempt /\ In l (labels issue) /\ equal_ignoring_case e (name l).
Proof.
  rewrite existsb_exists. split.
  - intros [e [He Hl]]. apply isLabeled_equal_ignoring_case in Hl.
    destruct Hl as [l [Hl Heq]]. eauto.
  - intros (e & l & He & Hl & Heq). exists e. split; [exact He|].
    apply isLabeled_equal_ignoring_case. eauto.
Qed.

(** C7 (as amended). An issue whose stale message is empty, or which is
    closed, or locked, or which carries an exempt label up to case (accents
    count), is passed over: no call is issued, nothing is recorded and no
    operation is spent, as the state is left untouched. *)
Theorem skipped_item_untouched env options r s :
  let issue := heap s !!! r in
  let isPr := pull_request issue in
  (if isPr then stalePrMessage options else staleIssueMessage options) = ""
  \/ state issue = "closed"
  \/ locked issue = true
  \/ (exists e l,
        In e (parseCommaSeparatedString
                (if isPr then exemptPrLabels options else exemptIssueLabels options))
        /\ In l (labels issue) /\ equal_ignoring_case e (name l)) ->
  processIssues_item env options r s = Ok tt s.
Proof.
  intros issue isPr H.
  unfold processIssues_item, mbind, M_bind, bind, deref. fold issue. fold isPr.
  destruct (String.eqb (if isPr then stalePrMessage options else staleIssueMessage options) "")
    eqn:Emsg; [reflexivity|].
  destruct (String.eqb (state issue) "closed") eqn:Eclosed; [reflexivity|].
  destruct (locked issue) eqn:Elocked; [reflexivity|].
  apply String.eqb_neq in Emsg, Eclosed.
  destruct H as [H|[H|[H|H]]]; try congruence.
  apply existsb_isLabeled in H. now rewrite H.
Qed.

(** ** The loop body, case by case *)

Lemma processIssues_item_cases env options r s :
  processIssues_item env options r s =
  let issue := heap s !!! r in
  if skips options issue then Ok tt s
  else
    let s1 := record_call NewDate s in
    if isLabeled issue (staleLabel_of options issue)
    then processStaleIssue env options r (issueType_of issue) (staleLabel_of options issue) s1
    else if within_days (clock env (trace s)) (updated_at issue) (daysBeforeStale options)
    then Ok tt s1
    else (markStale env options r (staleMessage_of options issue) (staleLabel_of options issue);;
          processStaleIssue env options r (issueType_of issue) (staleLabel_of options issue)) s1.
Proof.
  unfold processIssues_item, skips, staleMessage_of, staleLabel_of, exemptLabels_of,
    issueType_of, updatedSince, Date_now, mbind, M_bind, bind, deref.
  cbn zeta.
  destruct (String.eqb _ ""); [reflexivity|].
  destruct (String.eqb (state _) "closed"); [reflexivity|].
  destruct (locked _); [reflexivity|].
  destruct (existsb _ _); [reflexivity|].
  cbn [orb mret M_ret ret].
  destruct (isLabeled _ _); cbn [negb andb]; [reflexivity|].
  destruct (within_days _ _ _); cbn [negb]; [reflexivity|].
  destruct (markStale _ _ _ _ _ _); reflexivity.
Qed.

#[global] Instance unchanged_refl {X} (f : State -> X) : Reflexive (unchanged f).
Proof. intros s. reflexivity. Qed.

#[global] Instance unchanged_trans {X} (f : State -> X) : Transitive (unchanged f).
Proof. intros a b c Hab Hbc. unfold unchanged in *. congruence. Qed.

(** Settles a goal [preserves (unchanged f) m] for a primitive step [m]
    that does not write the field [f]. *)
Ltac unchanged_prim :=
  intros ?; unfold unchanged, await_read, await_write;
  repeat case_match; reflexivity.

Ltac unchanged_go :=
  repeat first [ preserves_step | solve [unchanged_prim] ].

Lemma processStaleIssue_keeps_staleIssues env options r t l :
  preserves (unchanged staleIssues) (processStaleIssue env options r t l).
Proof.
  unfold processStaleIssue, getLabelCreationDate, hasCommentsSince,
    listIssueComments, updatedSince, removeLabel, closeIssue.
  unchanged_go.
Qed.

Lemma stale_issue_call_not_transition c :
  stale_issue_call c = true -> stale_transition_call c = false.
Proof. destruct c; simpl; congruence. Qed.

(** C9. An issue on which [isLabeled] finds the stale label is not marked
    stale again: whatever else its evaluation does, it records no new
    stale issue, posts no comment and adds no label. *)
Theorem stale_issue_not_marked_again env options r s :
  let issue := heap s !!! r in
  isLabeled issue (staleLabel_of options issue) = true ->
  let s' := state_of (processIssues_item env options r s) in
  staleIssues s' = staleIssues s
  /\ exists new, trace s' = trace s ++ new
                 /\ Forall (fun c => stale_transition_call c = false) new.
Proof.
  intros issue Hstale. rewrite processIssues_item_cases. cbn zeta. fold issue.
  destruct (skips options issue).
  - split; [reflexivity|]. exists []. split; [now rewrite app_nil_r | constructor].
  - rewrite Hstale. split.
    + apply (processStaleIssue_keeps_staleIssues env options r _ _ (record_call NewDate s)).
    + destruct (trace_processStaleIssue env options r (issueType_of issue)
                  (staleLabel_of options issue) (record_call NewDate s)) as [l [Hl HF]].
      exists (NewDate :: l). split.
      * rewrite Hl. simpl. now rewrite <- app_assoc.
      * constructor; [reflexivity|].
        eapply Forall_impl; [exact HF | exact stale_issue_call_not_transition].
Qed.

(** ** The stale transition *)

Lemma MS_PER_DAY_eq : MS_PER_DAY = 86400000.
Proof. reflexivity. Qed.

(** Unfolds the methods down to the primitive steps and the projections of
    the states they build. *)
Ltac mrun :=
  unfold processStaleIssue, getLabelCreationDate, hasCommentsSince, listIssueComments,
    updatedSince, removeLabel, closeIssue, markStale, Date_now, await_read, await_write,
    deref, spend, push_stale, push_closed, push_removed, set_updated_at,
    get_operationsLeft, mbind, M_bind, bind, mret, M_ret, ret;
  cbn [heap trace operationsLeft staleIssues closedIssues removedLabelIssues
       record_call state_of].

Ltac mstep :=
  cbn [heap trace operationsLeft staleIssues closedIssues removedLabelIssues
       record_call state_of negb andb orb] in *.

Lemma markStale_state env options r m l s :
  let s2 := state_of (markStale env options r m l s) in
  heap s2 = <[r := with_updated_at (heap s !!! r)
                    (Date_toString env (TimeClip (clock env (trace s)
                                              - 86400000 * daysBeforeStale options)))]> (heap s)
  /\ staleIssues s2 = staleIssues s ++ [r]
  /\ closedIssues s2 = closedIssues s
  /\ removedLabelIssues s2 = removedLabelIssues s.
Proof.
  rewrite <- MS_PER_DAY_eq. mrun.
  destruct (debugOnly options); mstep; [auto|].
  repeat (match goal with |- context [writes ?e ?h ?c] => destruct (writes e h c) end; mstep);
    auto.
Qed.

(** C3 (as amended). An issue that is not passed over, on which
    [isLabeled] does not find the stale label and whose last update fails
    the recency check, goes through [markStale] and then, in the same pass,
    through [processStaleIssue]; [markStale] overwrites [updated_at] with
    the string form of the date [now - daysBeforeStale * 86,400,000 ms],
    [now] being the clock as [markStale] reads it, under dry-run as well.
    When that instant lies in year 100 or later, the string, which has no
    milliseconds, reads back as the whole second at or below the instant;
    when the instant is out of the range of a Date, the string is
    "Invalid Date". *)
Theorem fresh_stale_rewrites_updated_at env options r s :
  let issue := heap s !!! r in
  skips options issue = false ->
  isLabeled issue (staleLabel_of options issue) = false ->
  within_days (clock env (trace s)) (updated_at issue) (daysBeforeStale options) = false ->
  let s1 := record_call NewDate s in
  let target := clock env (trace s1) - daysBeforeStale options * 86400000 in
  let s2 := state_of (markStale env options r (staleMessage_of options issue)
                        (staleLabel_of options issue) s1) in
  processIssues_item env options r s =
    (markStale env options r (staleMessage_of options issue) (staleLabel_of options issue);;
     processStaleIssue env options r (issueType_of issue) (staleLabel_of options issue)) s1
  /\ heap s2 = <[r := with_updated_at issue (Date_toString env (TimeClip target))]> (heap s)
  /\ (YEAR_100 <= target <= 8640000000000000 ->
      exists t', updated_at (heap s2 !!! r) = TSdate t'
                 /\ t' <= target < t' + 1000 /\ t' mod 1000 = 0)
  /\ (8640000000000000 < Z.abs target -> updated_at (heap s2 !!! r) = TSinvalid).
Proof.
  intros issue Hskip Hlabel Hold s1 target s2.
  assert (Hheap : heap s2 =
            <[r := with_updated_at issue (Date_toString env (TimeClip target))]> (heap s)).
  { destruct (markStale_state env options r (staleMessage_of options issue)
                (staleLabel_of options issue) s1) as [Hheap _].
    subst s2 target. rewrite Hheap. subst s1. cbn [heap record_call].
    now rewrite (Z.mul_comm 86400000). }
  split_and!.
  - rewrite processIssues_item_cases. cbn zeta. fold issue.
    now rewrite Hskip, Hlabel, Hold.
  - exact Hheap.
  - intros [Hlo Hhi]. rewrite Hheap, lookup_total_insert_eq.
    cbn [with_updated_at updated_at]. unfold TimeClip, Date_toString, YEAR_100 in *.
    replace (Z.abs target <=? 8640000000000000) with true
      by (symmetry; apply Z.leb_le; lia).
    replace (-59011459200000 <=? target) with true by (symmetry; apply Z.leb_le; lia).
    exists (1000 * (target / 1000)). split; [reflexivity|].
    pose proof (Z.div_mod target 1000 ltac:(lia)).
    pose proof (Z.mod_pos_bound target 1000 ltac:(lia)).
    split; [lia|]. rewrite Z.mul_comm. apply Z.mod_mul. lia.
  - intros Hout. rewrite Hheap, lookup_total_insert_eq.
    cbn [with_updated_at updated_at]. unfold TimeClip.
    replace (Z.abs target <=? 8640000000000000) with false
      by (symmetry; apply Z.leb_gt; lia).
    reflexivity.
Qed.

(** ** Closing *)




Lemma getLabelCreationDate_frame env r l s res s1 :
  getLabelCreationDate env r l s = Ok res s1 ->
  heap s1 = heap s /\ closedIssues s1 = closedIssues s
  /\ trace s1 = trace s ++ [ListEvents 100 (number (heap s !!! r))].
Proof.
  mrun. destruct (events _ _ _); [|discriminate].
  destruct (List.find _ _); intros [= <- <-]; auto.
Qed.

Lemma filter_nonempty_Exists {A} (f : A -> bool) (l : list A) :
  (0 <? Z.of_nat (length (List.filter f l))) = true <-> Exists (fun x => f x = true) l.
Proof.
  rewrite Z.ltb_lt. induction l as [|a l IH]; simpl.
  - split; [lia | inversion 1].
  - destruct (f a) eqn:E; simpl.
    + split; [intros _; now constructor | lia].
    + rewrite IH. split; [now constructor 2|].
      inversion 1; subst; [congruence | assumption].
Qed.

Lemma is_user_comment_spec env c :
  is_user_comment env c = true <-> qualifying_comment (actor env) c.
Proof.
  unfold is_user_comment, qualifying_comment.
  rewrite andb_true_iff, negb_true_iff, String.eqb_eq, String.eqb_neq. reflexivity.
Qed.

Lemma truthy_false ts : truthy ts = false <-> ts = TSempty.
Proof. destruct ts; simpl; split; congruence. Qed.

(** The flag computed by [hasCommentsSince] is the documented one. *)
Lemma hasComments_spec env m cs :
  (if negb (truthy m) then true
   else 0 <? Z.of_nat (length (List.filter (is_user_comment env) cs))) = true
  <-> spec_hasComments (actor env) m cs.
Proof.
  unfold spec_hasComments. rewrite <- truthy_false.
  destruct (truthy m); cbn [negb].
  - rewrite filter_nonempty_Exists. split.
    + intros H. right. eapply Exists_impl; [exact H|]. intros c. apply is_user_comment_spec.
    + intros [H|H]; [discriminate|].
      eapply Exists_impl; [exact H|]. intros c. apply is_user_comment_spec.
  - split; auto.
Qed.

(** The flag computed by [updatedSince] is the documented one. *)
Lemma hasUpdate_spec now updated close stale :
  within_days now updated (close + stale) = true
  <-> spec_hasUpdate now updated close stale.
Proof.
  unfold within_days, spec_hasUpdate. rewrite MS_PER_DAY_eq.
  destruct (Date_getTime updated) as [t|]; cbn [fmap option_fmap option_map].
  - rewrite Z.leb_le. split.
    + intros H. exists t. split; [reflexivity | lia].
    + intros [t' [[= <-] H]]. lia.
  - split; [discriminate | intros [t' [[=] _]]].
Qed.

Lemma hasCommentsSince_run env r m s1 cs :
  (truthy m = true ->
   comments env (trace s1) (ListComments (number (heap s1 !!! r)) m) = Some cs) ->
  hasCommentsSince env r m s1 =
  Ok (if negb (truthy m) then true
      else 0 <? Z.of_nat (length (List.filter (is_user_comment env) cs)))
     (if truthy m then record_call (ListComments (number (heap s1 !!! r)) m) s1 else s1).
Proof.
  intros H. mrun. destruct (truthy m); cbn [negb]; [|reflexivity].
  now rewrite (H eq_refl).
Qed.

Lemma app_singleton_neq {A} (l : list A) (x : A) : l ++ [x] <> l.
Proof.
  intros H. apply (f_equal length) in H. rewrite length_app in H. simpl in H. lia.
Qed.

(** What [processStaleIssue] does once it has its two flags: the calls
    it adds, and whether it returns. *)
Lemma close_tail env options r lbl (hc hu : bool) s0 :
  let o := ((if removeStaleWhenUpdated options && hc
             then removeLabel env options r lbl else mret () : M unit);;
            if daysBeforeClose options <? 0 then mret ()
            else if negb hc && negb hu then closeIssue env options r else mret ()) s0 in
  let flag := (0 <=? daysBeforeClose options) && negb hc && negb hu in
  let update := Update (number (heap s0 !!! r)) "closed" in
  closedIssues (state_of o) = closedIssues s0 ++ (if flag then [r] else [])
  /\ (exists mid,
        trace (state_of o)
        = trace s0 ++ mid ++ (if flag && negb (debugOnly options) then [update] else [])
        /\ Forall (fun c => is_update c = false) mid)
  /\ (flag = true -> debugOnly options = false ->
      last (trace (state_of o)) = Some update
      /\ ((exists s'', o = Ok tt s'') <-> writes env (trace s0) update = true)).
Proof.
  cbv zeta. mrun.
  destruct (Z.ltb_spec (daysBeforeClose options) 0) as [Hneg|Hpos].
  - replace (0 <=? daysBeforeClose options) with false by (symmetry; apply Z.leb_gt; lia).
    cbn [andb]. rewrite app_nil_r.
    destruct (removeStaleWhenUpdated options && hc); mstep.
    + destruct (debugOnly options); mstep.
      * split_and!; [reflexivity | exists []; now rewrite !app_nil_r | discriminate].
      * destruct (writes _ _ _); mstep.
        all: split_and!; [reflexivity | eexists [_]; rewrite app_nil_r; split;
               [reflexivity | repeat constructor] | discriminate].
    + split_and!; [reflexivity | exists []; now rewrite !app_nil_r | discriminate].
  - replace (0 <=? daysBeforeClose options) with true by (symmetry; apply Z.leb_le; lia).
    destruct hc; cbn [negb andb].
    + rewrite andb_true_r, app_nil_r.
      destruct (removeStaleWhenUpdated options); mstep.
      * destruct (debugOnly options); mstep.
        -- split_and!; [reflexivity | exists []; now rewrite !app_nil_r | discriminate].
        -- destruct (writes _ _ _); mstep.
           all: split_and!; [reflexivity | eexists [_]; rewrite app_nil_r; split;
                  [reflexivity | repeat constructor] | discriminate].
      * split_and!; [reflexivity | exists []; now rewrite !app_nil_r | discriminate].
    + rewrite andb_false_r. destruct hu; cbn [negb andb]; mstep.
      * rewrite app_nil_r.
        split_and!; [reflexivity | exists []; now rewrite !app_nil_r | discriminate].
      * destruct (debugOnly options); mstep.
        -- split_and!; [reflexivity | exists []; now rewrite !app_nil_r | discriminate].
        -- destruct (writes env (trace s0) _) eqn:Ew; mstep.
           ++ split_and!; [reflexivity | exists []; split; [reflexivity | constructor] |].
              intros _ _. split; [apply last_snoc|]. split; [auto | eauto].
           ++ split_and!; [reflexivity | exists []; split; [reflexivity | constructor] |].
              intros _ _. split; [apply last_snoc|].
              split; [intros [s'' [=]] | discriminate].
Qed.

(** C4. Once the label history and, when it is asked for, the list of
    comments have resolved, [processStaleIssue] closes the issue exactly
    when [daysBeforeClose >= 0], [hasComments] is false and [hasUpdate] is
    false, with [hasComments] and [hasUpdate] as documented.  To close is
    to append the issue to [closedIssues] and, unless the run is a dry
    run, to ask the repository to set the state of this issue to
    "closed": that call is among the calls of the evaluation in this case
    and in no other; it is then the last one, and the method returns
    exactly when the repository accepts it. *)
Theorem close_decision env options r t lbl s labelDate s1 cs :
  getLabelCreationDate env r lbl s = Ok labelDate s1 ->
  let issue := heap s !!! r in
  let markedStaleOn := or_else labelDate (updated_at issue) in
  (truthy markedStaleOn = true ->
   comments env (trace s1) (ListComments (number issue) markedStaleOn) = Some cs) ->
  let s2 := state_of (hasCommentsSince env r markedStaleOn s1) in
  let now := clock env (trace s2) in
  let o := processStaleIssue env options r t lbl s in
  let s' := state_of o in
  let close := spec_closes (actor env) markedStaleOn cs now (updated_at issue)
                 (daysBeforeClose options) (daysBeforeStale options) in
  let update := Update (number issue) "closed" in
  (closedIssues s' = closedIssues s ++ [r] <-> close)
  /\ (closedIssues s' = closedIssues s <-> ~ close)
  /\ (In update (drop (length (trace s)) (trace s'))
      <-> close /\ debugOnly options = false)
  /\ (close -> debugOnly options = false ->
      last (trace s') = Some update
      /\ ((exists s'', o = Ok tt s'')
          <-> writes env (trace s2 ++ [NewDate]) update = true)).
Proof.
  intros Hget issue markedStaleOn Hcs s2 now o s' close update.
  destruct (getLabelCreationDate_frame _ _ _ _ _ _ Hget) as (Hheap & Hclosed & Htrace1).
  assert (Hissue : heap s1 !!! r = issue) by (now rewrite Hheap).
  rewrite <- Hissue in Hcs.
  pose proof (hasCommentsSince_run env r markedStaleOn s1 cs Hcs) as Hrun.
  set (hc := if negb (truthy markedStaleOn) then true
             else 0 <? Z.of_nat (length (List.filter (is_user_comment env) cs))) in *.
  assert (Es2 : s2 = (if truthy markedStaleOn
                      then record_call (ListComments (number (heap s1 !!! r)) markedStaleOn) s1
                      else s1)) by (subst s2; now rewrite Hrun).
  assert (Hs2 : heap s2 = heap s /\ closedIssues s2 = closedIssues s
                /\ exists pre, trace s2 = trace s ++ pre
                               /\ Forall (fun c => is_update c = false) pre).
  { rewrite Es2. destruct (truthy markedStaleOn); cbn [heap closedIssues trace record_call];
      rewrite Htrace1; split_and!; auto.
    - eexists [_; _]. split; [now rewrite <- app_assoc | repeat constructor].
    - eexists [_]. split; [reflexivity | repeat constructor]. }
  destruct Hs2 as (Hheap2 & Hclosed2 & pre & Htrace2 & Hpre).
  set (hu := within_days now (updated_at issue)
               (daysBeforeClose options + daysBeforeStale options)).
  set (flag := (0 <=? daysBeforeClose options) && negb hc && negb hu).
  assert (Ho : o = ((if removeStaleWhenUpdated options && hc
                     then removeLabel env options r lbl else mret () : M unit);;
                    if daysBeforeClose options <? 0 then mret ()
                    else if negb hc && negb hu then closeIssue env options r else mret ())
                     (record_call NewDate s2)).
  { subst o. unfold processStaleIssue.
    rewrite (bind_Ok _ _ _ _ _ Hget).
    rewrite (bind_Ok (deref r) _ s1 (heap s1 !!! r) s1 eq_refl).
    rewrite Hissue. fold markedStaleOn.
    rewrite (bind_Ok _ _ _ _ _ Hrun). rewrite <- Es2.
    now rewrite (bind_Ok (updatedSince env _ _) _ s2 hu (record_call NewDate s2) eq_refl). }
  destruct (close_tail env options r lbl hc hu (record_call NewDate s2))
    as (Hc & (mid & Htr & Hmid) & Hlast).
  rewrite <- Ho in Hc, Htr, Hlast. fold s' in Hc, Htr, Hlast. fold flag in Hc, Htr, Hlast.
  cbn [closedIssues trace heap record_call] in Hc, Htr, Hlast.
  rewrite Hheap2 in Htr, Hlast. fold issue in Htr, Hlast. fold update in Htr, Hlast.
  rewrite Hclosed2 in Hc.
  assert (Hdec : flag = true <-> close).
  { subst close flag. unfold spec_closes.
    rewrite !andb_true_iff, !negb_true_iff, Z.leb_le.
    rewrite <- (hasComments_spec env markedStaleOn cs), <- hasUpdate_spec.
    fold hc. fold hu. destruct hc, hu; intuition congruence. }
  assert (Hin : In update (drop (length (trace s)) (trace s'))
                <-> flag = true /\ debugOnly options = false).
  { rewrite Htr, Htrace2, <- !app_assoc, drop_app_length, !in_app_iff.
    split.
    - intros [H|[H|[H|H]]].
      + rewrite List.Forall_forall in Hpre. apply Hpre in H. discriminate H.
      + destruct H as [H|[]]. discriminate H.
      + rewrite List.Forall_forall in Hmid. apply Hmid in H. discriminate H.
      + destruct flag, (debugOnly options); cbn in H; tauto.
    - intros [-> ->]. right. right. right. now left. }
  split_and!.
  - rewrite Hc. destruct flag.
    + split; [intros _; now apply Hdec | reflexivity].
    + rewrite app_nil_r. split; intros H.
      * exfalso. symmetry in H. now apply app_singleton_neq in H.
      * apply Hdec in H. discriminate.
  - rewrite Hc. destruct flag.
    + split; intros H.
      * exfalso. now apply app_singleton_neq in H.
      * exfalso. apply H. now apply Hdec.
    + rewrite app_nil_r. split; [|reflexivity].
      intros _ Hcl. apply Hdec in Hcl. discriminate.
  - rewrite Hin, Hdec. reflexivity.
  - intros Hcl Hwet. apply Hdec in Hcl. exact (Hlast Hcl Hwet).
Qed.

Lemma closeIssue_calls_update env options r s :
  trace (state_of (closeIssue env options r s)) =
  trace s ++ (if debugOnly options then [] else [Update (number (heap s !!! r)) "closed"]).
Proof.
  mrun. destruct (debugOnly options); mstep; [now rewrite app_nil_r|].
  destruct (writes _ _ _); reflexivity.
Qed.

(** ** Dry run *)

Section DryRun.

Variable env : Env.
Hypothesis Hobl : oblivious_to_writes env.
Hypothesis Hwrites : writes_succeed env.

Lemma reads_only_snoc h c :
  reads_only (h ++ [c]) = reads_only h ++ (if is_mutation c then [] else [c]).
Proof. unfold reads_only. rewrite List.filter_app. simpl. now destruct (is_mutation c). Qed.

Lemma sim_ret {A} (a : A) : simulates (mret a) (mret a).
Proof. intros sd sw H. simpl. auto. Qed.

Lemma sim_bind {A B} (md mw : M A) (kd kw : A -> M B) :
  simulates md mw -> (forall a, simulates (kd a) (kw a)) ->
  simulates (md ≫= kd) (mw ≫= kw).
Proof.
  intros Hm Hk sd sw H. unfold mbind, M_bind, bind.
  specialize (Hm sd sw H). unfold same_result in Hm.
  destruct (md sd) as [a sd'|sd'], (mw sw) as [b sw'|sw']; try contradiction.
  - destruct Hm as [<- H']. now apply Hk.
  - exact Hm.
Qed.

Lemma sim_silent_bind {A C} (md : M C) (mw : M A) (k : A -> M C) :
  silent mw -> (forall a, simulates md (k a)) -> simulates md (mw ≫= k).
Proof.
  intros Hs Hk sd sw H. unfold mbind, M_bind, bind.
  destruct (Hs sd sw H) as (a & sw' & -> & H'). now apply Hk.
Qed.

Lemma sim_for_each {A} (fd fw : A -> M unit) (l : list A) :
  (forall x, simulates (fd x) (fw x)) -> simulates (for_each fd l) (for_each fw l).
Proof.
  intros Hf. induction l as [|x l IH]; simpl.
  - apply sim_ret.
  - apply sim_bind; [apply Hf | intros _; exact IH].
Qed.

Ltac sim_prim :=
  intros sd sw (Hops & Hst & Hcl & Hrm & Hheap & Htr);
  unfold same_result, dry_of; simpl;
  rewrite ?Hops, ?Hst, ?Hcl, ?Hrm, ?Hheap, ?Htr; auto 10.

Lemma sim_spend n : simulates (spend n) (spend n).
Proof. sim_prim. Qed.

Lemma sim_push_stale r : simulates (push_stale r) (push_stale r).
Proof. sim_prim. Qed.

Lemma sim_push_closed r : simulates (push_closed r) (push_closed r).
Proof. sim_prim. Qed.

Lemma sim_push_removed r : simulates (push_removed r) (push_removed r).
Proof. sim_prim. Qed.

Lemma sim_set_updated_at r v : simulates (set_updated_at r v) (set_updated_at r v).
Proof. sim_prim. Qed.

Lemma sim_deref r : simulates (deref r) (deref r).
Proof. sim_prim. Qed.

Lemma sim_get_operationsLeft : simulates get_operationsLeft get_operationsLeft.
Proof. sim_prim. Qed.

Lemma sim_Date_now : simulates (Date_now env) (Date_now env).
Proof.
  intros sd sw (Hops & Hst & Hcl & Hrm & Hheap & Htr).
  unfold same_result, dry_of, Date_now. cbn -[reads_only].
  destruct Hobl as (Hclock & _).
  rewrite Htr, reads_only_snoc, <- Hclock. cbn. auto 10.
Qed.

Lemma sim_await_read {A} (f : list Call -> Call -> option A) c :
  (forall h c, f h c = f (reads_only h) c) -> is_mutation c = false ->
  simulates (await_read f c) (await_read f c).
Proof.
  intros Hf Hc sd sw (Hops & Hst & Hcl & Hrm & Hheap & Htr).
  unfold same_result, dry_of, await_read.
  rewrite Htr, <- Hf.
  destruct (f (trace sw) c); cbn -[reads_only]; rewrite Htr, reads_only_snoc, Hc; auto 10.
Qed.

Lemma silent_deref r : silent (deref r).
Proof. intros sd sw H. exists (heap sw !!! r), sw. auto. Qed.

Lemma silent_await_write c : is_mutation c = true -> silent (await_write env c).
Proof.
  intros Hc sd sw (Hops & Hst & Hcl & Hrm & Hheap & Htr).
  exists tt, (record_call c sw). unfold await_write. rewrite Hwrites.
  split; [reflexivity|]. unfold dry_of. cbn -[reads_only].
  rewrite reads_only_snoc, Hc, app_nil_r. auto 10.
Qed.

Lemma sim_silent (mw : M unit) : silent mw -> simulates (mret tt) mw.
Proof.
  intros Hs sd sw H. destruct (Hs sd sw H) as ([] & sw' & -> & H'). simpl. auto.
Qed.

Ltac sim_step :=
  lazymatch goal with
  | |- simulates (mret ?a) (mret ?a) => apply sim_ret
  | |- simulates (_ ≫= _) (_ ≫= _) => apply sim_bind; [| intros ?]
  | |- simulates (for_each _ _) (for_each _ _) => apply sim_for_each; intros ?
  | |- simulates (if ?b then _ else _) (if ?b then _ else _) => destruct b
  | |- simulates (match ?o with _ => _ end) (match ?o with _ => _ end) => destruct o
  | |- simulates (mret _) (_ ≫= _) => apply sim_silent_bind; [| intros ?]
  | |- simulates (mret tt) (await_write _ _) => apply sim_silent
  | |- simulates (spend _) _ => apply sim_spend
  | |- simulates (push_stale _) _ => apply sim_push_stale
  | |- simulates (push_closed _) _ => apply sim_push_closed
  | |- simulates (push_removed _) _ => apply sim_push_removed
  | |- simulates (set_updated_at _ _) _ => apply sim_set_updated_at
  | |- simulates (deref _) _ => apply sim_deref
  | |- simulates get_operationsLeft _ => apply sim_get_operationsLeft
  | |- simulates (Date_now _) _ => apply sim_Date_now
  | |- simulates (await_read _ _) _ =>
      apply sim_await_read; [apply Hobl | reflexivity]
  | |- silent (deref _) => apply silent_deref
  | |- silent (await_write _ _) => apply silent_await_write; reflexivity
  end.

Variable options : IssueProcessorOptions.

Lemma sim_updatedSince ts d : simulates (updatedSince env ts d) (updatedSince env ts d).
Proof. unfold updatedSince. repeat sim_step. Qed.

Lemma sim_getLabelCreationDate r l :
  simulates (getLabelCreationDate env r l) (getLabelCreationDate env r l).
Proof. unfold getLabelCreationDate. repeat sim_step. Qed.

Lemma sim_hasCommentsSince r d :
  simulates (hasCommentsSince env r d) (hasCommentsSince env r d).
Proof. unfold hasCommentsSince, listIssueComments. repeat sim_step. Qed.

Lemma sim_markStale r m l :
  simulates (markStale env (set_debugOnly true options) r m l)
            (markStale env (set_debugOnly false options) r m l).
Proof. unfold markStale. cbn [set_debugOnly debugOnly daysBeforeStale]. repeat sim_step. Qed.

Lemma sim_closeIssue r :
  simulates (closeIssue env (set_debugOnly true options) r)
            (closeIssue env (set_debugOnly false options) r).
Proof. unfold closeIssue. cbn [set_debugOnly debugOnly]. repeat sim_step. Qed.

Lemma sim_removeLabel r l :
  simulates (removeLabel env (set_debugOnly true options) r l)
            (removeLabel env (set_debugOnly false options) r l).
Proof. unfold removeLabel. cbn [set_debugOnly debugOnly]. repeat sim_step. Qed.

Lemma sim_processStaleIssue r t l :
  simulates (processStaleIssue env (set_debugOnly true options) r t l)
            (processStaleIssue env (set_debugOnly false options) r t l).
Proof.
  unfold processStaleIssue.
  cbn [set_debugOnly daysBeforeStale daysBeforeClose removeStaleWhenUpdated].
  repeat first
    [ apply sim_getLabelCreationDate | apply sim_hasCommentsSince | apply sim_updatedSince
    | apply sim_removeLabel | apply sim_closeIssue | sim_step ].
Qed.

Lemma sim_processIssues_item r :
  simulates (processIssues_item env (set_debugOnly true options) r)
            (processIssues_item env (set_debugOnly false options) r).
Proof.
  unfold processIssues_item.
  cbn [set_debugOnly daysBeforeStale stalePrMessage staleIssueMessage stalePrLabel
       staleIssueLabel exemptPrLabels exemptIssueLabels].
  repeat first
    [ apply sim_processStaleIssue | apply sim_markStale | apply sim_updatedSince
    | sim_step ].
Qed.

Lemma sim_processIssues_page page :
  simulates (processIssues_page env (set_debugOnly true options) page)
            (processIssues_page env (set_debugOnly false options) page).
Proof.
  unfold processIssues_page, getIssues. cbn [set_debugOnly onlyLabels].
  repeat first [ apply sim_processIssues_item | sim_step ].
Qed.

Lemma sim_processIssues_fuel fuel : forall page sd sw,
  dry_of sd sw ->
  match processIssues_fuel env (set_debugOnly true options) fuel page sd,
        processIssues_fuel env (set_debugOnly false options) fuel page sw with
  | Some od, Some ow => same_result od ow
  | None, None => True
  | _, _ => False
  end.
Proof.
  induction fuel as [|fuel IH]; intros page sd sw H; cbn [processIssues_fuel]; [exact I|].
  pose proof (sim_processIssues_page page sd sw H) as Hp. unfold same_result in Hp.
  destruct (processIssues_page env (set_debugOnly true options) page sd) as [a sd'|sd'],
           (processIssues_page env (set_debugOnly false options) page sw) as [b sw'|sw'];
    try contradiction.
  - destruct Hp as [<- H']. destruct a as [n|]; [simpl; auto | now apply IH].
  - exact Hp.
Qed.

Lemma reads_only_no_mutation h : Forall (fun c => is_mutation c = false) (reads_only h).
Proof.
  unfold reads_only. apply List.Forall_forall. intros c Hc.
  apply filter_In in Hc. destruct Hc as [_ Hc]. now apply negb_true_iff in Hc.
Qed.

(** C8. With the same inputs (the clock and the read calls answer alike in
    both runs) and writes that succeed, the run with [debugOnly] set issues
    no mutation call and ends, like the run with [debugOnly] unset, with the
    same return value, the same [staleIssues], [closedIssues] and
    [removedLabelIssues], the same budget left and the same issue objects;
    its trace is the trace of the real run with the mutation calls taken
    out. *)
Theorem dry_run_same_bookkeeping (h : gmap nat Issue) (page : Z) :
  exists od ow,
    processIssues env (set_debugOnly true options) page (IssueProcessor_new options h) = Some od
    /\ processIssues env (set_debugOnly false options) page (IssueProcessor_new options h) = Some ow
    /\ Forall (fun c => is_mutation c = false) (trace (state_of od))
    /\ trace (state_of od) = reads_only (trace (state_of ow))
    /\ staleIssues (state_of od) = staleIssues (state_of ow)
    /\ closedIssues (state_of od) = closedIssues (state_of ow)
    /\ removedLabelIssues (state_of od) = removedLabelIssues (state_of ow)
    /\ operationsLeft (state_of od) = operationsLeft (state_of ow)
    /\ heap (state_of od) = heap (state_of ow)
    /\ match od, ow with
       | Ok a _, Ok b _ => a = b
       | Throw _, Throw _ => True
       | _, _ => False
       end.
Proof.
  set (s0 := IssueProcessor_new options h).
  assert (H0 : dry_of s0 s0) by (unfold dry_of; simpl; auto 10).
  destruct (processIssues_fuel_driver env (set_debugOnly true options)
              (processIssues_depth s0) page s0) as (_ & od & Hd & _);
    [unfold processIssues_depth; lia|].
  destruct (processIssues_fuel_driver env (set_debugOnly false options)
              (processIssues_depth s0) page s0) as (_ & ow & Hw & _);
    [unfold processIssues_depth; lia|].
  exists od, ow. split; [exact Hd|]. split; [exact Hw|].
  pose proof (sim_processIssues_fuel (processIssues_depth s0) page s0 s0 H0) as Hsim.
  unfold processIssues. rewrite Hd, Hw in Hsim.
  assert (Hrel : dry_of (state_of od) (state_of ow)
                 /\ match od, ow with
                    | Ok a _, Ok b _ => a = b
                    | Throw _, Throw _ => True
                    | _, _ => False
                    end).
  { unfold same_result in Hsim. destruct od, ow; try contradiction; simpl; tauto. }
  destruct Hrel as [(Hops & Hst & Hcl & Hrm & Hheap & Htr) Hres].
  split_and!; auto.
  rewrite Htr. apply reads_only_no_mutation.
Qed.

End DryRun.

(** ** Runs without a rejected call *)

Section Returns.

Variable env : Env.
Variable options : IssueProcessorOptions.
Hypothesis Hok : never_rejects env.

Lemma returns_ret {A} (a : A) : returns (mret a).
Proof. intros s. now exists a, s. Qed.

Lemma returns_bind {A B} (m : M A) (k : A -> M B) :
  returns m -> (forall a, returns (k a)) -> returns (m ≫= k).
Proof.
  intros Hm Hk s. destruct (Hm s) as (a & s1 & E).
  rewrite (bind_Ok _ _ _ _ _ E). apply Hk.
Qed.

Lemma returns_for_each {A} (f : A -> M unit) (l : list A) :
  (forall x, returns (f x)) -> returns (for_each f l).
Proof.
  intros Hf. induction l as [|x l IH]; simpl.
  - apply returns_ret.
  - apply returns_bind; [apply Hf | intros _; exact IH].
Qed.

Lemma returns_await_pages c : returns (await_read (pages env) c).
Proof.
  intros s. unfold await_read. destruct Hok as (H & _).
  destruct (H (trace s) c) as [a ->]. eauto.
Qed.

Lemma returns_await_events c : returns (await_read (events env) c).
Proof.
  intros s. unfold await_read. destruct Hok as (_ & H & _).
  destruct (H (trace s) c) as [a ->]. eauto.
Qed.

Lemma returns_await_comments c : returns (await_read (comments env) c).
Proof.
  intros s. unfold await_read. destruct Hok as (_ & _ & H & _).
  destruct (H (trace s) c) as [a ->]. eauto.
Qed.

Lemma returns_await_write c : returns (await_write env c).
Proof.
  intros s. unfold await_write. destruct Hok as (_ & _ & _ & H).
  rewrite H. eauto.
Qed.

Ltac returns_go :=
  repeat lazymatch goal with
  | |- returns (mret _) => apply returns_ret
  | |- returns (_ ≫= _) => apply returns_bind; [| intros ?]
  | |- returns (for_each _ _) => apply returns_for_each; intros ?
  | |- returns (if ?b then _ else _) => destruct b
  | |- returns (match ?o with _ => _ end) => destruct o
  | |- returns (await_read (pages _) _) => apply returns_await_pages
  | |- returns (await_read (events _) _) => apply returns_await_events
  | |- returns (await_read (comments _) _) => apply returns_await_comments
  | |- returns (await_write _ _) => apply returns_await_write
  | |- returns _ => intros ?; eexists _, _; reflexivity
  end.

Lemma returns_processIssues_item r : returns (processIssues_item env options r).
Proof.
  unfold processIssues_item, processStaleIssue, markStale, closeIssue, removeLabel,
    hasCommentsSince, listIssueComments, getLabelCreationDate, updatedSince.
  returns_go.
Qed.

Lemma returns_getIssues page : returns (getIssues env options page).
Proof. unfold getIssues. returns_go. Qed.

(** When no call is rejected the run returns, and it returns either the
    budget left, on an empty page, or 0 with the budget used up. *)
Lemma BatchDriver_returns page s pgs o :
  BatchDriver env options page s pgs o ->
  exists n s', o = Ok n s'
               /\ (n = operationsLeft s' \/ (n = 0 /\ operationsLeft s' <= 0)).
Proof.
  induction 1 as [page s s1 Hget | page s s1 Hget | page s issues s1 s2 Hget Hne Hitems
                 | page s issues s1 s2 Hget Hne Hitems Hleft
                 | page s issues s1 s2 pgs o Hget Hne Hitems Hleft Hnext IH].
  - destruct (returns_getIssues page s) as (a & s' & E). congruence.
  - eexists _, _. split; [reflexivity|]. left. reflexivity.
  - destruct (returns_for_each (processIssues_item env options) issues
                returns_processIssues_item (state_of (spend 1 s1))) as (a & s' & E).
    congruence.
  - eexists _, _. split; [reflexivity|]. right. auto.
  - exact IH.
Qed.

Lemma processIssues_returns page s :
  exists n s', processIssues env options page s = Some (Ok n s')
               /\ (n = operationsLeft s' \/ (n = 0 /\ operationsLeft s' <= 0)).
Proof.
  destruct (processIssues_fuel_driver env options (processIssues_depth s) page s)
    as (pgs & o & Hrun & Hdrv & _); [unfold processIssues_depth; lia|].
  destruct (BatchDriver_returns page s pgs o Hdrv) as (n & s' & -> & Hn).
  exists n, s'. split; [exact Hrun | exact Hn].
Qed.

End Returns.

(** ** Worked examples *)

(** The comments of a stale issue are fetched for free: [processStaleIssue]
    issues two reads and one write here, and charges two operations. *)
Example comments_fetch_not_charged :
  let s' := state_of (processStaleIssue ex_env ex_options 0%nat "issue" (plain "stale")
                        ex_state_stale) in
  trace s' = [ListEvents 100 7; ListComments 7 example_old; NewDate; Update 7 "closed"]
  /\ operationsLeft s' = operationsLeft ex_state_stale - 2.
Proof. vm_compute. split; reflexivity. Qed.

(** C3, counterexample. At 1700000000123 ms with [daysBeforeStale = 60]
    the rewritten [updated_at] parses to 1694816000000, not to
    1694816000123. *)
Lemma updated_at_drops_milliseconds :
  let s' := state_of (markStale ex_env ex_options 0%nat "This issue is stale" (plain "stale")
                        ex_state) in
  clock ex_env (trace ex_state) = 1700000000123
  /\ Date_getTime (updated_at (heap s' !!! 0%nat)) = Some 1694816000000
  /\ Date_getTime (updated_at (heap s' !!! 0%nat))
     <> Some (clock ex_env (trace ex_state) - daysBeforeStale ex_options * 86400000).
Proof. vm_compute. split_and!; [reflexivity | reflexivity | discriminate]. Qed.

Lemma fresh_stale_rewrites_updated_at_witness :
  skips ex_options (heap ex_state !!! 0%nat) = false
  /\ isLabeled (heap ex_state !!! 0%nat) (plain "stale") = false
  /\ within_days example_now example_old 60 = false
  /\ heap (state_of (markStale ex_env ex_options 0%nat "This issue is stale" (plain "stale")
                       (record_call NewDate ex_state)))
     = <[0%nat := with_updated_at (example_issue example_old []) (TSdate 1694816000000)]>
         (heap ex_state).
Proof.
  split_and!; [vm_compute; reflexivity ..|].
  destruct (fresh_stale_rewrites_updated_at ex_env ex_options 0%nat ex_state)
    as (_ & H & _); [vm_compute; reflexivity ..|].
  exact H.
Defined.




(** C7, counterexample. "cafe" is exempt, the issue is labelled "café":
    it is not passed over but marked stale, at the cost of three
    operations and two mutation calls. *)
Lemma accented_exempt_label_not_skipped :
  let s' := state_of (processIssues_item ex_env ex_options_cafe 0%nat ex_state_cafe) in
  (exists e l, In e (exemptLabels_of ex_options_cafe ex_issue_cafe)
               /\ In l (labels ex_issue_cafe)
               /\ equal_ignoring_case_and_accents e (name l))
  /\ heap ex_state_cafe !!! 0%nat = ex_issue_cafe
  /\ operationsLeft s' = operationsLeft ex_state_cafe - 3
  /\ staleIssues s' = [0%nat]
  /\ List.filter is_mutation (trace s')
     = [CreateComment 7 "This issue is stale"; AddLabels 7 [plain "stale"]].
Proof.
  split_and!; try (vm_compute; reflexivity).
  exists (plain "cafe"), (mkLabel cafe_accented).
  split_and!; [left | left |]; vm_compute; reflexivity.
Qed.

Lemma skipped_item_untouched_witness :
  (exists e l, In e (exemptLabels_of ex_options_cafe (heap ex_state_Cafe !!! 0%nat))
               /\ In l (labels (heap ex_state_Cafe !!! 0%nat))
               /\ equal_ignoring_case e (name l))
  /\ processIssues_item ex_env ex_options_cafe 0%nat ex_state_Cafe = Ok tt ex_state_Cafe.
Proof.
  assert (H : exists e l,
             In e (exemptLabels_of ex_options_cafe (heap ex_state_Cafe !!! 0%nat))
             /\ In l (labels (heap ex_state_Cafe !!! 0%nat))
             /\ equal_ignoring_case e (name l)).
  { exists (plain "cafe"), (mkLabel (plain "Cafe")).
    split_and!; [left | left |]; vm_compute; reflexivity. }
  split; [exact H|].
  apply (skipped_item_untouched ex_env ex_options_cafe 0%nat ex_state_Cafe).
  right. right. right. exact H.
Defined.

Lemma stale_issue_not_marked_again_witness :
  isLabeled (heap ex_state_stale !!! 0%nat) (plain "stale") = true
  /\ staleIssues (state_of (processIssues_item ex_env ex_options 0%nat ex_state_stale))
     = staleIssues ex_state_stale.
Proof.
  split; [vm_compute; reflexivity|].
  apply (stale_issue_not_marked_again ex_env ex_options 0%nat ex_state_stale).
  vm_compute; reflexivity.
Defined.

Lemma getLabelCreationDate_last_labeled_witness :
  events ex_env_history (trace ex_state_stale) (ListEvents 100 7) = Some ex_history
  /\ exists res s',
       getLabelCreationDate ex_env_history 0%nat (plain "stale") ex_state_stale = Ok res s'.
Proof.
  split; [reflexivity|].
  destruct (getLabelCreationDate_last_labeled ex_env_history 0%nat (plain "stale")
              ex_state_stale ex_history eq_refl) as (res & s' & H & _).
  exists res, s'. exact H.
Defined.

(** The label history is searched by exact name: the last "labeled" event
    naming "stale" is the one at 3000, whereas "STALE" is not found in the
    history although [isLabeled] finds it on the issue. *)
Example label_history_match_is_exact :
  (exists s', getLabelCreationDate ex_env_history 0%nat (plain "stale") ex_state_stale
              = Ok (Some (TSdate 3000)) s')
  /\ (exists s', getLabelCreationDate ex_env_history 0%nat (plain "STALE") ex_state_stale
                 = Ok None s')
  /\ isLabeled ex_issue_stale (plain "STALE") = true.
Proof. split_and!; [eexists; vm_compute; reflexivity ..|vm_compute; reflexivity]. Qed.

Lemma close_decision_witness :
  let s1 := state_of (getLabelCreationDate ex_env_history 0%nat (plain "stale") ex_state_stale) in
  let s' := state_of (processStaleIssue ex_env_history ex_options 0%nat "issue" (plain "stale")
                        ex_state_stale) in
  getLabelCreationDate ex_env_history 0%nat (plain "stale") ex_state_stale
    = Ok (Some (TSdate 3000)) s1
  /\ comments ex_env_history (trace s1) (ListComments 7 (TSdate 3000)) = Some []
  /\ spec_closes "github-actions" (TSdate 3000) [] example_now example_old 7 60
  /\ closedIssues s' = closedIssues ex_state_stale ++ [0%nat]
  /\ In (Update 7 "closed") (drop (length (trace ex_state_stale)) (trace s'))
  /\ last (trace s') = Some (Update 7 "closed").
Proof.
  cbv zeta.
  assert (Hget : getLabelCreationDate ex_env_history 0%nat (plain "stale") ex_state_stale
                 = Ok (Some (TSdate 3000))
                      (state_of (getLabelCreationDate ex_env_history 0%nat (plain "stale")
                                   ex_state_stale)))
    by (vm_compute; reflexivity).
  assert (Hclose : spec_closes "github-actions" (TSdate 3000) [] example_now example_old 7 60).
  { unfold spec_closes, spec_hasComments, spec_hasUpdate. split_and!.
    - lia.
    - intros [H|H]; [discriminate | inversion H].
    - intros (t & [= <-] & H). vm_compute in H. apply H. reflexivity. }
  destruct (close_decision ex_env_history ex_options 0%nat "issue" (plain "stale")
              ex_state_stale (Some (TSdate 3000)) _ [] Hget (fun _ => eq_refl))
    as (Hlist & _ & Hcall & Hlast).
  split_and!; [exact Hget | reflexivity | exact Hclose | | |].
  - apply Hlist. exact Hclose.
  - apply Hcall. split; [exact Hclose | reflexivity].
  - apply (Hlast Hclose eq_refl).
Defined.

(** C5. With [daysBeforeClose = 0] the outcome hangs on the milliseconds
    of the clock: at a whole second the back-dated [updated_at] is exactly
    [daysBeforeStale] days old, which still counts as updated, and the
    issue freshly marked stale stays open. *)
Example fresh_stale_kept_open_at_whole_second :
  let s := example_state ex_options_close0 (example_issue example_old []) in
  let s' := state_of (processIssues_item (example_env 1700000000000 [0%nat])
                        ex_options_close0 0%nat s) in
  staleIssues s' = [0%nat] /\ closedIssues s' = [].
Proof. vm_compute. split; reflexivity. Qed.

(** C5. A date back-dated to before year 100 does not read back as
    itself: here [daysBeforeStale] is a million days, the parser of
    [ex_env] makes no date of the string stored in [updated_at], and the
    issue freshly marked stale is closed although seven days are left
    before closing. *)
Example fresh_stale_closed_when_back_dated_before_year_100 :
  let options := example_options 1000000 7 [] false in
  let s := example_state options (example_issue (TSdate (-100000000000000)) []) in
  let s' := state_of (processIssues_item ex_env options 0%nat s) in
  example_now - 86400000 * daysBeforeStale options < YEAR_100
  /\ staleIssues s' = [0%nat] /\ closedIssues s' = [0%nat]
  /\ updated_at (heap s' !!! 0%nat) = TSinvalid.
Proof. vm_compute. split_and!; reflexivity. Qed.


Lemma example_env_oblivious now page1 : oblivious_to_writes (example_env now page1).
Proof. unfold oblivious_to_writes. split_and!; reflexivity. Qed.

Lemma dry_run_same_bookkeeping_witness :
  oblivious_to_writes ex_env /\ writes_succeed ex_env
  /\ exists od ow,
       processIssues ex_env (set_debugOnly true ex_options_close0) 1
         (IssueProcessor_new ex_options_close0 {[ 0%nat := example_issue example_old [] ]})
       = Some od
       /\ processIssues ex_env (set_debugOnly false ex_options_close0) 1
            (IssueProcessor_new ex_options_close0 {[ 0%nat := example_issue example_old [] ]})
          = Some ow
       /\ closedIssues (state_of od) = closedIssues (state_of ow).
Proof.
  assert (Ho : oblivious_to_writes ex_env)
    by (unfold oblivious_to_writes; split_and!; reflexivity).
  assert (Hw : writes_succeed ex_env) by (intros h c; reflexivity).
  split_and!; [exact Ho | exact Hw |].
  destruct (dry_run_same_bookkeeping ex_env Ho Hw ex_options_close0
              {[ 0%nat := example_issue example_old [] ]} 1)
    as (od & ow & Hd & Hwet & _ & _ & _ & Hc & _).
  exists od, ow. split_and!; assumption.
Defined.

(** Without that condition the two runs part: the repository of
    [ex_env_recording] shows the real run the label it has just added, so
    the real run asks for the comments since the label was applied, finds
    none and closes the issue; the dry run added no label, asks for the
    comments since the back-dated [updated_at], finds the comment of a
    human and leaves the issue open.  Every write succeeds. *)
Lemma dry_run_parts_from_real_run :
  writes_succeed ex_env_recording
  /\ exists nd sd nw sw,
       processIssues ex_env_recording (set_debugOnly true ex_options_close0) 1
         (IssueProcessor_new ex_options_close0 {[ 0%nat := example_issue example_old [] ]})
       = Some (Ok nd sd)
       /\ processIssues ex_env_recording (set_debugOnly false ex_options_close0) 1
            (IssueProcessor_new ex_options_close0 {[ 0%nat := example_issue example_old [] ]})
          = Some (Ok nw sw)
       /\ staleIssues sd = [0%nat] /\ staleIssues sw = [0%nat]
       /\ closedIssues sd = [] /\ closedIssues sw = [0%nat]
       /\ operationsLeft sd = 25 /\ operationsLeft sw = 24
       /\ nd = 25 /\ nw = 24.
Proof.
  split; [intros h c; reflexivity|].
  do 4 eexists. split; [vm_compute; reflexivity|]. split; [vm_compute; reflexivity|].
  cbn [staleIssues closedIssues operationsLeft]. split_and!; reflexivity.
Qed.

(** The dry run of the example: marked stale and closed on paper, with no
    mutation call among the calls issued. *)
Example dry_run_example :
  match processIssues ex_env (set_debugOnly true ex_options_close0) 1
          (IssueProcessor_new ex_options_close0 {[ 0%nat := example_issue example_old [] ]})
  with
  | Some (Ok n s) =>
      n = 24 /\ staleIssues s = [0%nat] /\ closedIssues s = [0%nat]
      /\ List.filter is_mutation (trace s) = []
  | _ => False
  end.
Proof. vm_compute. split_and!; reflexivity. Qed.

(** The budget is looked at between pages only: with one operation to
    spend and two old issues on the first page, both are marked stale, the
    budget ends below zero, no second page is requested and the run
    returns 0. *)
Example budget_checked_at_page_end :
  match processIssues ex_env_two ex_options_budget1 1 ex_state_two with
  | Some (Ok n s) =>
      n = 0 /\ staleIssues s = [0%nat; 1%nat] /\ operationsLeft s = -6
      /\ page_requests (trace s) = [(100, 1)]
  | _ => False
  end.
Proof. vm_compute. split_and!; reflexivity. Qed.

(** ** The exempt-label list *)

Lemma split_comma_length s :
  length (split_comma s) = S (length (List.filter is_comma s)).
Proof.
  induction s as [|c s IH]; [reflexivity|].
  cbn [split_comma List.filter]. destruct (is_comma c); cbn [length].
  - now rewrite IH.
  - destruct (split_comma s) as [|w ws]; [discriminate | exact IH].
Qed.

(** X1. [parseCommaSeparatedString] returns no entry for the empty string
    and otherwise one entry more than the string has commas: entries that
    are empty or blank are kept, so "a,,b" yields three entries and ","
    yields two. *)
Theorem parseCommaSeparatedString_length s :
  length (parseCommaSeparatedString s) =
  match s with
  | [] => 0%nat
  | _ => S (length (List.filter is_comma s))
  end.
Proof.
  unfold parseCommaSeparatedString. destruct s as [|c s]; [reflexivity|].
  cbn [length]. replace (Z.of_nat (S (length s)) =? 0) with false
    by (symmetry; apply Z.eqb_neq; lia).
  now rewrite length_fmap, split_comma_length.
Qed.

Lemma split_comma_no_comma s :
  Forall (Forall (fun c => is_comma c = false)) (split_comma s).
Proof.
  induction s as [|c s IH]; cbn [split_comma]; [repeat constructor|].
  destruct (is_comma c) eqn:E; [constructor; [constructor | exact IH]|].
  destruct (split_comma s) as [|w ws]; [repeat constructor; exact E|].
  inversion IH; subst. constructor; [constructor; assumption | assumption].
Qed.

Lemma drop_space_split s :
  exists p, s = p ++ drop_space s /\ Forall (fun c => is_space c = true) p.
Proof.
  induction s as [|c s (p & Hp & HF)]; [exists []; split; [reflexivity | constructor]|].
  cbn [drop_space]. destruct (is_space c) eqn:E.
  - exists (c :: p). split; [cbn; now rewrite <- Hp | constructor; assumption].
  - exists []. split; [reflexivity | constructor].
Qed.

Lemma drop_space_head s c : head (drop_space s) = Some c -> is_space c = false.
Proof.
  induction s as [|a s IH]; cbn [drop_space]; [discriminate|].
  destruct (is_space a) eqn:E; [exact IH|]. cbn. now intros [= <-].
Qed.

Lemma drop_space_clean s :
  (forall c, head s = Some c -> is_space c = false) -> drop_space s = s.
Proof.
  destruct s as [|a s]; [reflexivity|]. intros H. cbn [drop_space].
  now rewrite (H a eq_refl).
Qed.

Lemma head_rev_last {A} (l : list A) : head (rev l) = last l.
Proof.
  induction l as [|a l IH]; [reflexivity|].
  cbn [rev]. destruct l as [|b l]; [reflexivity|].
  rewrite last_cons_cons, <- IH. cbn [rev].
  destruct (rev l) as [|x t]; reflexivity.
Qed.

Lemma trim_head s c : head (trim s) = Some c -> is_space c = false.
Proof.
  unfold trim. intros H.
  destruct (drop_space_split (rev (drop_space s))) as (p & Hp & _).
  set (y := drop_space (rev (drop_space s))) in *.
  assert (Hx : drop_space s = rev y ++ rev p).
  { rewrite <- (rev_involutive (drop_space s)), Hp. apply rev_app_distr. }
  apply (drop_space_head s). rewrite Hx.
  destruct (rev y) as [|a t]; [discriminate|]. exact H.
Qed.

Lemma trim_last s c : last (trim s) = Some c -> is_space c = false.
Proof.
  unfold trim. rewrite <- head_rev_last, rev_involutive. apply drop_space_head.
Qed.

Lemma Forall_drop_space (P : Char -> Prop) s : Forall P s -> Forall P (drop_space s).
Proof.
  induction 1 as [|c s Hc Hs IH]; cbn [drop_space]; [constructor|].
  destruct (is_space c); [exact IH | now constructor].
Qed.

Lemma Forall_rev_list {A} (P : A -> Prop) (l : list A) : Forall P l -> Forall P (rev l).
Proof.
  intros H. apply List.Forall_forall. intros x Hx.
  apply in_rev in Hx. rewrite List.Forall_forall in H. now apply H.
Qed.

Lemma Forall_trim (P : Char -> Prop) s : Forall P s -> Forall P (trim s).
Proof.
  intros H. unfold trim.
  apply Forall_rev_list, Forall_drop_space, Forall_rev_list, Forall_drop_space, H.
Qed.

(** X2. Every entry that [parseCommaSeparatedString] returns is trimmed
    and free of commas: it neither starts nor ends with white space, and
    none of its characters is a comma. *)
Theorem parseCommaSeparatedString_entries s :
  Forall (fun e =>
            (forall c, head e = Some c -> is_space c = false)
            /\ (forall c, last e = Some c -> is_space c = false)
            /\ Forall (fun c => is_comma c = false) e)
         (parseCommaSeparatedString s).
Proof.
  unfold parseCommaSeparatedString.
  destruct (Z.of_nat (length s) =? 0); [constructor|].
  apply Forall_fmap. eapply Forall_impl; [apply split_comma_no_comma|].
  intros w Hw. cbn. split_and!.
  - apply trim_head.
  - apply trim_last.
  - now apply Forall_trim.
Qed.

Lemma join_split_comma s : join_comma (split_comma s) = s.
Proof.
  induction s as [|c s IH]; [reflexivity|].
  cbn [split_comma]. destruct (is_comma c) eqn:E.
  - apply bool_decide_eq_true in E. subst c.
    cbn [join_comma]. destruct (split_comma s) as [|w ws] eqn:Es.
    + pose proof (split_comma_length s) as H. rewrite Es in H. discriminate.
    + cbn [app]. now rewrite IH.
  - destruct (split_comma s) as [|w ws] eqn:Es.
    + pose proof (split_comma_length s) as H. rewrite Es in H. discriminate.
    + cbn [join_comma] in *. destruct ws; cbn [app]; now rewrite <- IH.
Qed.

Lemma trim_no_space s : Forall (fun c => is_space c = false) s -> trim s = s.
Proof.
  intros H. unfold trim.
  assert (Hd : forall t, Forall (fun c => is_space c = false) t -> drop_space t = t).
  { intros t Ht. apply drop_space_clean. intros c Hc.
    destruct t as [|a t]; [discriminate|]. injection Hc as <-. now inversion Ht. }
  rewrite (Hd s H), (Hd (rev s) (Forall_rev_list _ _ H)). apply rev_involutive.
Qed.

Lemma split_comma_Forall (P : Char -> Prop) s :
  Forall P s -> Forall (Forall P) (split_comma s).
Proof.
  induction 1 as [|c s Hc Hs IH]; cbn [split_comma]; [repeat constructor|].
  destruct (is_comma c); [constructor; [constructor | exact IH]|].
  destruct (split_comma s) as [|w ws]; [repeat constructor; exact Hc|].
  inversion IH; subst. constructor; [now constructor | assumption].
Qed.

(** X3. On a string without white space [parseCommaSeparatedString] loses
    nothing: joining the entries it returns with commas gives the string
    back. *)
Theorem parseCommaSeparatedString_join s :
  Forall (fun c => is_space c = false) s ->
  join_comma (parseCommaSeparatedString s) = s.
Proof.
  intros H. unfold parseCommaSeparatedString.
  destruct s as [|c s]; [reflexivity|].
  cbn [length]. replace (Z.of_nat (S (length s)) =? 0) with false
    by (symmetry; apply Z.eqb_neq; lia).
  assert (Hid : trim <$> split_comma (c :: s) = split_comma (c :: s)).
  { pose proof (split_comma_Forall _ _ H) as HF.
    induction HF as [|w ws Hw _ IH]; [reflexivity|].
    cbn [fmap list_fmap]. f_equal; [now apply trim_no_space | exact IH]. }
  rewrite Hid. apply join_split_comma.
Qed.

Lemma parseCommaSeparatedString_join_witness :
  Forall (fun c => is_space c = false) (plain "wip,help-wanted")
  /\ join_comma (parseCommaSeparatedString (plain "wip,help-wanted"))
     = plain "wip,help-wanted".
Proof.
  assert (H : Forall (fun c => is_space c = false) (plain "wip,help-wanted"))
    by (repeat constructor).
  split; [exact H | exact (parseCommaSeparatedString_join _ H)].
Defined.

(** ** Label matching, continued *)

Lemma is_upper_not_control c : is_upper c = true -> is_control c = false.
Proof.
  unfold is_upper, is_control. intros H.
  apply andb_true_iff in H. destruct H as [H1 H2].
  apply Z.leb_le in H1. apply Z.leb_le in H2.
  apply orb_false_iff. split; [apply orb_false_iff; split|].
  - apply Z.leb_gt. lia.
  - apply andb_false_iff. right. apply Z.leb_gt. lia.
  - apply Z.eqb_neq. lia.
Qed.

Lemma lower_case_letter_not_control c :
  is_upper c = true -> is_control (ascii_of_nat (nat_of_ascii c + 32)) = false.
Proof.
  unfold is_upper, is_control. intros H.
  apply andb_true_iff in H. destruct H as [H1 H2].
  apply Z.leb_le in H1. apply Z.leb_le in H2.
  rewrite nat_ascii_embedding by lia.
  apply orb_false_iff. split; [apply orb_false_iff; split|].
  - apply Z.leb_gt. lia.
  - apply andb_false_iff. right. apply Z.leb_gt. lia.
  - apply Z.eqb_neq. lia.
Qed.

(** The two cases of a letter are both letters: neither is a control
    character. *)
Lemma to_lower_control c d : to_lower c = to_lower d -> is_control c = is_control d.
Proof.
  unfold to_lower.
  destruct (is_upper c) eqn:Ec, (is_upper d) eqn:Ed; intros H.
  - now rewrite !is_upper_not_control.
  - subst d. now rewrite is_upper_not_control, lower_case_letter_not_control.
  - subst c. now rewrite (is_upper_not_control d), lower_case_letter_not_control.
  - now subst d.
Qed.

Lemma folded_cons c s : folded (c :: s) = folded [c] ++ folded s.
Proof.
  unfold folded, code_points. cbn [flat_map].
  now rewrite app_nil_r, List.filter_app, fmap_app.
Qed.

(** Names that differ in case only read the same once folded, and so have
    the same sort key. *)
Lemma same_up_to_case_equal_ignoring_case a b :
  same_up_to_case a b -> equal_ignoring_case a b.
Proof.
  unfold equal_ignoring_case.
  induction 1 as [|c d a b [Hb Hm] _ IH]; [reflexivity|].
  rewrite (folded_cons c), (folded_cons d), IH. f_equal.
  destruct c as [c m], d as [d k]. cbn [base mark] in Hb, Hm. subst k.
  unfold folded, code_points. cbn [flat_map]. rewrite !app_nil_r.
  unfold code_points_of. cbn [base mark List.filter visible].
  rewrite (to_lower_control c d Hb).
  destruct (is_control d), m;
    cbn [negb List.filter visible fmap list_fmap lower_case]; now rewrite ?Hb.
Qed.

(** X4. [isLabeled] does not depend on the case of the searched name: two
    names that differ in the case of their letters only are found on the
    same issues.  The collator gives both cases of a letter the same
    weights at the two levels it compares. *)
Theorem isLabeled_case_insensitive issue a b :
  same_up_to_case a b -> isLabeled issue a = isLabeled issue b.
Proof.
  intros Hab. apply same_up_to_case_equal_ignoring_case in Hab.
  assert (H : forall x y, equal_ignoring_case x y ->
                          isLabeled issue x = true -> isLabeled issue y = true).
  { intros x y Hxy Hx. apply isLabeled_equal_ignoring_case in Hx.
    destruct Hx as (l & Hl & Hxl). apply isLabeled_equal_ignoring_case.
    exists l. split; [exact Hl|]. unfold equal_ignoring_case in *. congruence. }
  destruct (isLabeled issue a) eqn:Ea, (isLabeled issue b) eqn:Eb; try reflexivity.
  - rewrite (H a b Hab Ea) in Eb. discriminate.
  - assert (Hba : equal_ignoring_case b a) by (unfold equal_ignoring_case in *; congruence).
    rewrite (H b a Hba Eb) in Ea. discriminate.
Qed.

Lemma isLabeled_case_insensitive_witness :
  same_up_to_case (plain "STALE") (plain "stale")
  /\ isLabeled ex_issue_stale (plain "STALE") = isLabeled ex_issue_stale (plain "stale")
  /\ isLabeled ex_issue_stale (plain "stale") = true.
Proof.
  assert (H : same_up_to_case (plain "STALE") (plain "stale"))
    by (repeat constructor).
  split_and!; [exact H | exact (isLabeled_case_insensitive ex_issue_stale _ _ H) | reflexivity].
Defined.

(** The collator passes over a control character: "stale" followed by
    U+0001 is found on an issue labelled "stale"; a name with another
    letter is not. *)
Example control_character_ignored :
  isLabeled ex_issue_stale (plain "stale" ++ [SOH]) = true
  /\ isLabeled ex_issue_stale (plain "stale ") = false
  /\ isLabeled ex_issue_stale (plain "stalee") = false.
Proof. vm_compute. split_and!; reflexivity. Qed.

(** [encodeURIComponent] at work: a space and a question mark are
    escaped, an accent is written as the two bytes of its UTF-8 form, and
    a name of letters and hyphens stands for itself. *)
Example encodeURIComponent_examples :
  encodeURIComponent (plain "help wanted?") = plain "help%20wanted%3F"
  /\ encodeURIComponent cafe_accented = plain "cafe%CC%81"
  /\ encodeURIComponent (plain "wont-fix") = plain "wont-fix".
Proof. vm_compute. split_and!; reflexivity. Qed.

(** ** One issue, continued *)

(** X5. An issue that is not passed over, on which [isLabeled] does not
    find the stale label and whose [updated_at] is no date at all, is
    marked stale: the comparison with NaN fails, so the issue counts as not
    updated, whatever [daysBeforeStale] is. *)
Theorem unparsable_date_marked_stale env options r s :
  let issue := heap s !!! r in
  skips options issue = false ->
  isLabeled issue (staleLabel_of options issue) = false ->
  Date_getTime (updated_at issue) = None ->
  staleIssues (state_of (processIssues_item env options r s)) = staleIssues s ++ [r].
Proof.
  intros issue Hskip Hlabel Hnan.
  rewrite processIssues_item_cases. cbn zeta. fold issue. rewrite Hskip, Hlabel.
  unfold within_days. rewrite Hnan. cbn [fmap option_fmap option_map].
  destruct (markStale_state env options r (staleMessage_of options issue)
              (staleLabel_of options issue) (record_call NewDate s)) as (_ & Hstale & _).
  unfold mbind, M_bind, bind.
  destruct (markStale env options r _ _ (record_call NewDate s)) as [[] s2|s2];
    cbn [state_of staleIssues record_call] in *; [|exact Hstale].
  rewrite <- Hstale.
  apply (processStaleIssue_keeps_staleIssues env options r _ _ s2).
Qed.

Lemma unparsable_date_marked_stale_witness :
  let s := example_state ex_options (example_issue TSinvalid []) in
  skips ex_options (heap s !!! 0%nat) = false
  /\ isLabeled (heap s !!! 0%nat) (staleLabel_of ex_options (heap s !!! 0%nat)) = false
  /\ Date_getTime (updated_at (heap s !!! 0%nat)) = None
  /\ staleIssues (state_of (processIssues_item ex_env ex_options 0%nat s))
     = staleIssues s ++ [0%nat].
Proof.
  cbv zeta. split_and!; [vm_compute; reflexivity ..|].
  apply (unparsable_date_marked_stale ex_env ex_options 0%nat
           (example_state ex_options (example_issue TSinvalid [])));
    vm_compute; reflexivity.
Defined.

(** X6. An issue on which [isLabeled] does not find the stale label and
    whose last update lies within [daysBeforeStale] days of the clock is
    left alone: its evaluation reads the clock at most, issues no call to
    the repository, records nothing, spends nothing and leaves the issue
    objects as they are. *)
Theorem recent_issue_left_alone env options r s :
  let issue := heap s !!! r in
  isLabeled issue (staleLabel_of options issue) = false ->
  within_days (clock env (trace s)) (updated_at issue) (daysBeforeStale options) = true ->
  processIssues_item env options r s = Ok tt s
  \/ processIssues_item env options r s = Ok tt (record_call NewDate s).
Proof.
  intros issue Hlabel Hrecent.
  rewrite processIssues_item_cases. cbn zeta. fold issue.
  destruct (skips options issue); [now left|].
  rewrite Hlabel, Hrecent. now right.
Qed.

Lemma recent_issue_left_alone_witness :
  let s := example_state ex_options (example_issue (TSdate (example_now - 86400000)) []) in
  isLabeled (heap s !!! 0%nat) (staleLabel_of ex_options (heap s !!! 0%nat)) = false
  /\ within_days (clock ex_env (trace s)) (updated_at (heap s !!! 0%nat))
       (daysBeforeStale ex_options) = true
  /\ (processIssues_item ex_env ex_options 0%nat s = Ok tt s
      \/ processIssues_item ex_env ex_options 0%nat s = Ok tt (record_call NewDate s)).
Proof.
  cbv zeta. split_and!; [vm_compute; reflexivity ..|].
  apply (recent_issue_left_alone ex_env ex_options 0%nat
           (example_state ex_options (example_issue (TSdate (example_now - 86400000)) [])));
    vm_compute; reflexivity.
Defined.

(** X7. [markStale] reads the clock, then posts the comment, then adds the
    label: the label is asked for only after the comment has been accepted,
    and under dry-run neither call is issued.  It returns unless one of the
    two calls is rejected. *)
Theorem markStale_calls env options r m l s :
  let n := number (heap s !!! r) in
  let h1 := trace s ++ [NewDate] in
  let h2 := h1 ++ [CreateComment n m] in
  let o := markStale env options r m l s in
  trace (state_of o) =
    h1 ++ (if debugOnly options then []
           else CreateComment n m ::
                (if writes env h1 (CreateComment n m) then [AddLabels n [l]] else []))
  /\ ((exists s', o = Ok tt s') <->
      debugOnly options = true
      \/ (writes env h1 (CreateComment n m) = true
          /\ writes env h2 (AddLabels n [l]) = true)).
Proof.
  cbv zeta. mrun.
  destruct (debugOnly options); mstep.
  { rewrite app_nil_r. split; [reflexivity|]. split; [auto | eauto]. }
  rewrite lookup_total_insert_eq. cbn [number with_updated_at].
  destruct (writes env (trace s ++ [NewDate]) _) eqn:E1; mstep.
  - destruct (writes env ((trace s ++ [NewDate]) ++ _) _) eqn:E2; mstep.
    + split; [now rewrite <- !app_assoc|]. split; [auto | eauto].
    + split; [now rewrite <- !app_assoc|].
      split; [intros [s' [=]] | intros [[=]|[_ [=]]]].
  - split; [reflexivity|].
    split; [intros [s' [=]] | intros [[=]|[[=] _]]].
Qed.

(** X8. The three writes and the label history are charged when they are
    attempted, whether the call then succeeds, is rejected or, under
    dry-run, is not issued: [markStale] costs two operations, [closeIssue],
    [removeLabel] and [getLabelCreationDate] one each. *)
Theorem charged_on_attempt env options r m l s :
  operationsLeft (state_of (markStale env options r m l s)) = operationsLeft s - 2
  /\ operationsLeft (state_of (closeIssue env options r s)) = operationsLeft s - 1
  /\ operationsLeft (state_of (removeLabel env options r l s)) = operationsLeft s - 1
  /\ operationsLeft (state_of (getLabelCreationDate env r l s)) = operationsLeft s - 1.
Proof.
  split_and!.
  - apply markStale_spends_2.
  - apply closeIssue_spends_1.
  - apply removeLabel_spends_1.
  - apply getLabelCreationDate_spends_1.
Qed.

Lemma processStaleIssue_keeps_heap env options r t l :
  preserves (unchanged heap) (processStaleIssue env options r t l).
Proof.
  unfold processStaleIssue, getLabelCreationDate, hasCommentsSince,
    listIssueComments, updatedSince, removeLabel, closeIssue.
  unchanged_go.
Qed.

(** X9. An issue is closed or stripped of its label only as a stale one:
    when [isLabeled] does not find the stale label and the evaluation does
    not mark the issue stale, it neither closes the issue nor removes a
    label from it. *)
Theorem only_stale_issues_closed env options r s :
  let issue := heap s !!! r in
  let s' := state_of (processIssues_item env options r s) in
  isLabeled issue (staleLabel_of options issue) = false ->
  staleIssues s' = staleIssues s ->
  closedIssues s' = closedIssues s
  /\ removedLabelIssues s' = removedLabelIssues s
  /\ Forall (fun c => is_mutation c = false) (drop (length (trace s)) (trace s')).
Proof.
  intros issue s' Hlabel. subst s'.
  rewrite processIssues_item_cases. cbn zeta. fold issue.
  destruct (skips options issue).
  { intros _. cbn [state_of]. rewrite drop_all. auto. }
  rewrite Hlabel.
  destruct (within_days _ _ _).
  { intros _. cbn [state_of record_call trace closedIssues removedLabelIssues].
    rewrite drop_app_length. split_and!; auto. }
  intros Hsame. exfalso.
  destruct (markStale_state env options r (staleMessage_of options issue)
              (staleLabel_of options issue) (record_call NewDate s)) as (_ & Hstale & _).
  revert Hsame. unfold mbind, M_bind, bind.
  destruct (markStale env options r _ _ (record_call NewDate s)) as [[] s2|s2];
    cbn [state_of staleIssues record_call] in *.
  - rewrite (processStaleIssue_keeps_staleIssues env options r _ _ s2), Hstale.
    apply app_singleton_neq.
  - rewrite Hstale. apply app_singleton_neq.
Qed.

Lemma only_stale_issues_closed_witness :
  let s := example_state ex_options (example_issue (TSdate (example_now - 86400000)) []) in
  let s' := state_of (processIssues_item ex_env ex_options 0%nat s) in
  isLabeled (heap s !!! 0%nat) (staleLabel_of ex_options (heap s !!! 0%nat)) = false
  /\ staleIssues s' = staleIssues s
  /\ closedIssues s' = closedIssues s.
Proof.
  cbv zeta. split_and!; [vm_compute; reflexivity ..|].
  apply (only_stale_issues_closed ex_env ex_options 0%nat
           (example_state ex_options (example_issue (TSdate (example_now - 86400000)) [])));
    vm_compute; reflexivity.
Defined.

(** ** Removing the stale label *)

Lemma getLabelCreationDate_keeps_removed env r l s res s1 :
  getLabelCreationDate env r l s = Ok res s1 ->
  removedLabelIssues s1 = removedLabelIssues s.
Proof.
  mrun. destruct (events _ _ _); [|discriminate].
  destruct (List.find _ _); intros [= <- <-]; reflexivity.
Qed.

(** X10. Once the label history and, when it is asked for, the list of
    comments have resolved, [processStaleIssue] removes the stale label
    exactly when [removeStaleWhenUpdated] is set and [hasComments] holds:
    the issue is appended to [removedLabelIssues] in that case, whatever
    [daysBeforeClose] is, and [removedLabelIssues] is left alone
    otherwise. *)
Theorem unstale_decision env options r t lbl s labelDate s1 cs :
  getLabelCreationDate env r lbl s = Ok labelDate s1 ->
  let issue := heap s !!! r in
  let markedStaleOn := or_else labelDate (updated_at issue) in
  (truthy markedStaleOn = true ->
   comments env (trace s1) (ListComments (number issue) markedStaleOn) = Some cs) ->
  let s' := state_of (processStaleIssue env options r t lbl s) in
  let unstale := removeStaleWhenUpdated options = true
                 /\ spec_hasComments (actor env) markedStaleOn cs in
  (removedLabelIssues s' = removedLabelIssues s ++ [r] <-> unstale)
  /\ (removedLabelIssues s' = removedLabelIssues s <-> ~ unstale).
Proof.
  intros Hget issue markedStaleOn Hcs s' unstale.
  destruct (getLabelCreationDate_frame _ _ _ _ _ _ Hget) as (Hheap & _ & _).
  pose proof (getLabelCreationDate_keeps_removed _ _ _ _ _ _ Hget) as Hrem.
  assert (Hissue : heap s1 !!! r = issue) by (now rewrite Hheap).
  rewrite <- Hissue in Hcs.
  pose proof (hasCommentsSince_run env r markedStaleOn s1 cs Hcs) as Hrun.
  set (hc := if negb (truthy markedStaleOn) then true
             else 0 <? Z.of_nat (length (List.filter (is_user_comment env) cs))) in *.
  set (s2 := if truthy markedStaleOn
             then record_call (ListComments (number (heap s1 !!! r)) markedStaleOn) s1
             else s1) in *.
  assert (Hrem2 : removedLabelIssues s2 = removedLabelIssues s)
    by (subst s2; destruct (truthy markedStaleOn); exact Hrem).
  assert (Hs' : removedLabelIssues s' =
                removedLabelIssues s ++
                (if removeStaleWhenUpdated options && hc then [r] else [])).
  { subst s'. unfold processStaleIssue.
    rewrite (bind_Ok _ _ _ _ _ Hget).
    rewrite (bind_Ok (deref r) _ s1 (heap s1 !!! r) s1 eq_refl).
    rewrite Hissue. fold markedStaleOn.
    rewrite (bind_Ok _ _ _ _ _ Hrun).
    rewrite (bind_Ok (updatedSince env _ _) _ s2 _ (record_call NewDate s2) eq_refl).
    destruct (removeStaleWhenUpdated options && hc) eqn:Eb.
    - assert (Ehc : hc = true) by (apply andb_true_iff in Eb; tauto).
      rewrite Ehc. cbn [negb andb]. mrun.
      destruct (debugOnly options); mstep.
      + destruct (_ <? 0); mstep; now rewrite Hrem2.
      + destruct (writes _ _ _); mstep; [|now rewrite Hrem2].
        destruct (_ <? 0); mstep; now rewrite Hrem2.
    - rewrite app_nil_r. mrun.
      destruct (_ <? 0); mstep; [exact Hrem2|].
      destruct (negb hc && _); mstep; [|exact Hrem2].
      destruct (debugOnly options); mstep; [exact Hrem2|].
      destruct (writes _ _ _); exact Hrem2. }
  assert (Hdec : (removeStaleWhenUpdated options && hc) = true <-> unstale).
  { subst unstale. rewrite andb_true_iff, <- (hasComments_spec env markedStaleOn cs).
    reflexivity. }
  rewrite Hs'. destruct (removeStaleWhenUpdated options && hc).
  - split; split; intros H.
    + now apply Hdec.
    + reflexivity.
    + exfalso. now apply app_singleton_neq in H.
    + exfalso. apply H. now apply Hdec.
  - rewrite app_nil_r. split; split; intros H.
    + exfalso. symmetry in H. now apply app_singleton_neq in H.
    + apply Hdec in H. discriminate.
    + intros Hc. apply Hdec in Hc. discriminate.
    + reflexivity.
Qed.

Lemma unstale_decision_witness :
  let options := mkOptions "token" "This issue is stale" "This PR is stale" 60 7
                   (plain "stale") [] (plain "stale") [] "" 30 true false in
  let s1 := state_of (getLabelCreationDate ex_env_human 0%nat (plain "stale") ex_state_stale) in
  let s' := state_of (processStaleIssue ex_env_human options 0%nat "issue" (plain "stale")
                        ex_state_stale) in
  getLabelCreationDate ex_env_human 0%nat (plain "stale") ex_state_stale
    = Ok (Some (TSdate 3000)) s1
  /\ comments ex_env_human (trace s1) (ListComments 7 (TSdate 3000)) = Some ex_comments
  /\ spec_hasComments "github-actions" (TSdate 3000) ex_comments
  /\ removedLabelIssues s' = removedLabelIssues ex_state_stale ++ [0%nat].
Proof.
  cbv zeta.
  assert (Hget : getLabelCreationDate ex_env_human 0%nat (plain "stale") ex_state_stale
                 = Ok (Some (TSdate 3000))
                      (state_of (getLabelCreationDate ex_env_human 0%nat (plain "stale")
                                   ex_state_stale)))
    by (vm_compute; reflexivity).
  assert (Hc : spec_hasComments "github-actions" (TSdate 3000) ex_comments).
  { right. apply Exists_cons_tl. apply Exists_cons_hd. split; [reflexivity | discriminate]. }
  split_and!; [exact Hget | reflexivity | exact Hc |].
  apply (unstale_decision ex_env_human _ 0%nat "issue" (plain "stale")
           ex_state_stale (Some (TSdate 3000)) _ ex_comments Hget (fun _ => eq_refl)).
  split; [reflexivity | exact Hc].
Defined.

Lemma tail_never_both env options r l (b hu : bool) s0 :
  let s' := state_of
    (((if removeStaleWhenUpdated options && b
       then removeLabel env options r l else mret () : M unit);;
      if daysBeforeClose options <? 0 then mret ()
      else if negb b && negb hu then closeIssue env options r else mret ()) s0) in
  closedIssues s' = closedIssues s0 \/ removedLabelIssues s' = removedLabelIssues s0.
Proof.
  cbv zeta. destruct b; cbn [negb andb].
  - left. rewrite andb_true_r. mrun.
    destruct (removeStaleWhenUpdated options); mstep.
    + destruct (debugOnly options); mstep; [destruct (_ <? 0); reflexivity|].
      destruct (writes _ _ _); mstep; [|reflexivity].
      destruct (_ <? 0); reflexivity.
    + destruct (_ <? 0); reflexivity.
  - right. rewrite andb_false_r. mrun.
    destruct (_ <? 0); mstep; [reflexivity|].
    destruct (negb hu); mstep; [|reflexivity].
    destruct (debugOnly options); mstep; [reflexivity|].
    destruct (writes _ _ _); reflexivity.
Qed.

Lemma processStaleIssue_never_both env options r t l s :
  let s' := state_of (processStaleIssue env options r t l s) in
  closedIssues s' = closedIssues s \/ removedLabelIssues s' = removedLabelIssues s.
Proof.
  cbv zeta.
  assert (Hgo : forall (b : bool) (s0 : State),
    heap s0 = heap s ->
    closedIssues s0 = closedIssues s -> removedLabelIssues s0 = removedLabelIssues s ->
    let s' := state_of (
      match (if removeStaleWhenUpdated options && b
             then removeLabel env options r l else mret ())
              (record_call NewDate s0) with
      | Ok _ s' =>
          (if daysBeforeClose options <? 0 then mret ()
           else if negb b && negb (within_days (clock env (trace s0))
                                     (updated_at (heap s !!! r))
                                     (daysBeforeClose options + daysBeforeStale options))
                then closeIssue env options r else mret ()) s'
      | Throw s' => Throw s'
      end) in
    closedIssues s' = closedIssues s \/ removedLabelIssues s' = removedLabelIssues s).
  { intros b s0 _ Hc Hr.
    pose proof (tail_never_both env options r l b
                  (within_days (clock env (trace s0)) (updated_at (heap s !!! r))
                     (daysBeforeClose options + daysBeforeStale options))
                  (record_call NewDate s0)) as H.
    cbv zeta in H. cbn [closedIssues removedLabelIssues record_call] in H.
    rewrite Hc, Hr in H. exact H. }
  mrun.
  destruct (events _ _ _); mstep; [|now left].
  destruct (List.find _ _) as [e|]; mstep.
  all: destruct (truthy _); mstep.
  all: try (destruct (comments _ _ _); mstep; [|now left]).
  all: apply Hgo; reflexivity.
Qed.

(** X11. One evaluation never both removes the stale label from an issue
    and closes it: of [closedIssues] and [removedLabelIssues], at most one
    has changed afterwards. *)
Theorem never_unstaled_and_closed env options r s :
  let s' := state_of (processIssues_item env options r s) in
  closedIssues s' = closedIssues s \/ removedLabelIssues s' = removedLabelIssues s.
Proof.
  cbv zeta. rewrite processIssues_item_cases. cbn zeta.
  set (issue := heap s !!! r).
  destruct (skips options issue); [now left|].
  destruct (isLabeled issue (staleLabel_of options issue)).
  { apply (processStaleIssue_never_both env options r _ _ (record_call NewDate s)). }
  destruct (within_days _ _ _); [now left|].
  destruct (markStale_state env options r (staleMessage_of options issue)
              (staleLabel_of options issue) (record_call NewDate s))
    as (_ & _ & Hclosed & Hremoved).
  unfold mbind, M_bind, bind.
  destruct (markStale env options r _ _ (record_call NewDate s)) as [[] s2|s2];
    cbn [state_of closedIssues removedLabelIssues record_call] in *; [|now left].
  rewrite <- Hclosed, <- Hremoved.
  apply (processStaleIssue_never_both env options r _ _ s2).
Qed.

(** ** Whole runs *)

Lemma processIssues_total env options page s :
  exists o, processIssues env options page s = Some o.
Proof.
  destruct (processIssues_fuel_driver env options (processIssues_depth s) page s)
    as (pgs & o & Hrun & _); [unfold processIssues_depth; lia|].
  now exists o.
Qed.

Section Lift.

Context (R : State -> State -> Prop) `{!Reflexive R, !Transitive R}.
Variable env : Env.
Variable options : IssueProcessorOptions.

Lemma preserves_processIssues_page :
  (forall page, preserves R (getIssues env options page)) ->
  preserves R (spend 1) ->
  (forall r, preserves R (processIssues_item env options r)) ->
  forall page, preserves R (processIssues_page env options page).
Proof.
  intros Hfetch Hspend Hitem page. unfold processIssues_page.
  repeat first [ apply Hfetch | apply Hspend | apply Hitem | preserves_step ].
Qed.

Lemma preserves_processIssues_fuel :
  (forall page, preserves R (processIssues_page env options page)) ->
  forall fuel page s o,
    processIssues_fuel env options fuel page s = Some o -> R s (state_of o).
Proof.
  intros Hpage fuel. induction fuel as [|fuel IH]; intros page s o; [discriminate|].
  cbn [processIssues_fuel]. specialize (Hpage page s).
  destruct (processIssues_page env options page s) as [[n|] s1|s1]; cbn [state_of] in Hpage.
  - now intros [= <-].
  - intros H. etransitivity; [exact Hpage | exact (IH _ _ _ H)].
  - now intros [= <-].
Qed.

Lemma preserves_processIssues :
  (forall page, preserves R (getIssues env options page)) ->
  preserves R (spend 1) ->
  (forall r, preserves R (processIssues_item env options r)) ->
  forall page s o, processIssues env options page s = Some o -> R s (state_of o).
Proof.
  intros Hfetch Hspend Hitem page s o. unfold processIssues.
  apply preserves_processIssues_fuel.
  now apply preserves_processIssues_page.
Qed.

End Lift.

Ltac unfold_methods :=
  unfold processIssues_item, processStaleIssue, markStale, closeIssue, removeLabel,
    hasCommentsSince, listIssueComments, getLabelCreationDate, updatedSince.

Section Switches.

Variable env : Env.
Variable options : IssueProcessorOptions.

Lemma item_closing_disabled r :
  daysBeforeClose options < 0 ->
  preserves (unchanged closedIssues) (processIssues_item env options r)
  /\ preserves (extends_with (fun c => is_update c = false))
               (processIssues_item env options r).
Proof.
  intros H. apply Z.ltb_lt in H. unfold_methods. rewrite H. cbv iota.
  split; [unchanged_go | trace_go].
Qed.

(** X12. With a negative [daysBeforeClose] a run closes nothing: whatever
    the repository answers, [closedIssues] ends as it began and no
    [issues.update] call is issued. *)
Theorem closing_disabled page s :
  daysBeforeClose options < 0 ->
  exists o,
    processIssues env options page s = Some o
    /\ closedIssues (state_of o) = closedIssues s
    /\ exists new, trace (state_of o) = trace s ++ new
                   /\ Forall (fun c => is_update c = false) new.
Proof.
  intros Hneg. destruct (processIssues_total env options page s) as [o Hrun].
  exists o. split; [exact Hrun|]. split.
  - apply (preserves_processIssues (unchanged closedIssues) env options) with page; auto.
    + intros p. unfold getIssues. unchanged_prim.
    + unchanged_prim.
    + intros r. now apply item_closing_disabled.
  - apply (preserves_processIssues (extends_with (fun c => is_update c = false))
             env options) with page; auto.
    + intros p. unfold getIssues. now apply trace_await_read.
    + apply trace_spend.
    + intros r. now apply item_closing_disabled.
Qed.

Lemma item_unstale_disabled r :
  removeStaleWhenUpdated options = false ->
  preserves (unchanged removedLabelIssues) (processIssues_item env options r)
  /\ preserves (extends_with (fun c => is_remove_label c = false))
               (processIssues_item env options r).
Proof.
  intros H. unfold_methods. rewrite H. cbn [andb]. cbv iota.
  split; [unchanged_go | trace_go].
Qed.

(** X13. With [removeStaleWhenUpdated] unset a run removes no label:
    [removedLabelIssues] ends as it began and no [issues.removeLabel] call
    is issued, comments or not. *)
Theorem unstale_disabled page s :
  removeStaleWhenUpdated options = false ->
  exists o,
    processIssues env options page s = Some o
    /\ removedLabelIssues (state_of o) = removedLabelIssues s
    /\ exists new, trace (state_of o) = trace s ++ new
                   /\ Forall (fun c => is_remove_label c = false) new.
Proof.
  intros Hoff. destruct (processIssues_total env options page s) as [o Hrun].
  exists o. split; [exact Hrun|]. split.
  - apply (preserves_processIssues (unchanged removedLabelIssues) env options) with page; auto.
    + intros p. unfold getIssues. unchanged_prim.
    + unchanged_prim.
    + intros r. now apply item_unstale_disabled.
  - apply (preserves_processIssues (extends_with (fun c => is_remove_label c = false))
             env options) with page; auto.
    + intros p. unfold getIssues. now apply trace_await_read.
    + apply trace_spend.
    + intros r. now apply item_unstale_disabled.
Qed.

Lemma item_dry_run r :
  debugOnly options = true ->
  preserves (extends_with (fun c => is_mutation c = false))
            (processIssues_item env options r).
Proof.
  intros H. unfold_methods. rewrite H. cbv iota. trace_go.
Qed.

(** X14. Under dry-run no mutation call leaves the processor, whatever
    the repository and the clock answer and whether or not a read is
    rejected on the way. *)
Theorem dry_run_never_writes page s :
  debugOnly options = true ->
  exists o,
    processIssues env options page s = Some o
    /\ exists new, trace (state_of o) = trace s ++ new
                   /\ Forall (fun c => is_mutation c = false) new.
Proof.
  intros Hdry. destruct (processIssues_total env options page s) as [o Hrun].
  exists o. split; [exact Hrun|].
  apply (preserves_processIssues (extends_with (fun c => is_mutation c = false))
           env options) with page; auto.
  - intros p. unfold getIssues. now apply trace_await_read.
  - apply trace_spend.
  - intros r. now apply item_dry_run.
Qed.

End Switches.

Section Bounds.

Variable env : Env.
Variable options : IssueProcessorOptions.

Lemma BatchDriver_page_bound page s pgs o :
  BatchDriver env options page s pgs o ->
  (length pgs <= Z.to_nat (Z.max 1 (operationsLeft s)))%nat.
Proof.
  induction 1 as [page s s1 Hget | page s s1 Hget | page s issues s1 s2 Hget Hne Hitems
                 | page s issues s1 s2 Hget Hne Hitems Hleft
                 | page s issues s1 s2 pgs o Hget Hne Hitems Hleft Hnext IH];
    cbn [length]; try lia.
  pose proof (getIssues_state env options page s) as Hs1.
  rewrite Hget in Hs1. cbn [state_of] in Hs1.
  pose proof (for_each_items_budget env options issues (state_of (spend 1 s1))) as Hb.
  rewrite Hitems in Hb. subst s1. cbn in Hb. lia.
Qed.

(** X15. The budget bounds the length of a run: a run asks for at most
    [operationsLeft] pages, and for one page when the budget is zero or
    negative to begin with. *)
Theorem page_requests_bounded page s :
  exists o,
    processIssues env options page s = Some o
    /\ (length (page_requests (trace (state_of o)))
        <= length (page_requests (trace s)) + Z.to_nat (Z.max 1 (operationsLeft s)))%nat.
Proof.
  destruct (processIssues_fuel_driver env options (processIssues_depth s) page s)
    as (pgs & o & Hrun & Hdrv & _ & _ & Htrace); [unfold processIssues_depth; lia|].
  exists o. split; [exact Hrun|].
  rewrite Htrace, length_app, length_fmap.
  pose proof (BatchDriver_page_bound page s pgs o Hdrv). lia.
Qed.

Lemma count_calls_snoc f t c :
  count_calls f (t ++ [c]) = count_calls f t + (if f c then 1 else 0).
Proof.
  unfold count_calls. rewrite List.filter_app, length_app. cbn [List.filter].
  destruct (f c); cbn [length]; lia.
Qed.

Ltac split_answers :=
  repeat (match goal with
          | |- context [debugOnly ?o] => destruct (debugOnly o)
          | |- context [writes ?e ?h ?c] => destruct (writes e h c)
          | |- context [events ?e ?h ?c] => destruct (events e h c)
          | |- context [comments ?e ?h ?c] => destruct (comments e h c)
          | |- context [truthy ?t] => destruct (truthy t)
          | |- context [List.find ?f ?l] => destruct (List.find f l)
          end; mstep).

Ltac account_run :=
  intros s; unfold unchanged, account, spent; mrun; split_answers;
  rewrite ?length_app, ?count_calls_snoc; cbn [length charged_read]; lia.

Lemma account_updatedSince ts d : preserves (unchanged account) (updatedSince env ts d).
Proof. account_run. Qed.

Lemma account_markStale r m l : preserves (unchanged account) (markStale env options r m l).
Proof. account_run. Qed.

Lemma account_closeIssue r : preserves (unchanged account) (closeIssue env options r).
Proof. account_run. Qed.

Lemma account_removeLabel r l : preserves (unchanged account) (removeLabel env options r l).
Proof. account_run. Qed.

Lemma account_getLabelCreationDate r l :
  preserves (unchanged account) (getLabelCreationDate env r l).
Proof. account_run. Qed.

Lemma account_hasCommentsSince r d :
  preserves (unchanged account) (hasCommentsSince env r d).
Proof. account_run. Qed.

Lemma account_processIssues_item r :
  preserves (unchanged account) (processIssues_item env options r).
Proof.
  unfold processIssues_item, processStaleIssue.
  repeat first
    [ apply account_updatedSince | apply account_markStale | apply account_closeIssue
    | apply account_removeLabel | apply account_getLabelCreationDate
    | apply account_hasCommentsSince | preserves_step ].
Qed.

Lemma account_processIssues_page page s :
  match processIssues_page env options page s with
  | Ok _ s' => account s' = account s
  | Throw s' => account s' = account s \/ account s' = account s + 1
  end.
Proof.
  pose proof (processIssues_page_cases env options page s) as Hcases.
  pose proof (getIssues_state env options page s) as Hget.
  assert (Hfetch : account (record_call (ListForRepo "open" (onlyLabels options) 100 page) s)
                   = account s + 1).
  { unfold account, spent. cbn [record_call operationsLeft staleIssues closedIssues
      removedLabelIssues trace]. rewrite count_calls_snoc. cbn [charged_read]. lia. }
  destruct (getIssues env options page s) as [issues s1|s1]; cbn [state_of] in Hget; subst s1.
  2:{ rewrite Hcases. now right. }
  assert (Hspend : account (state_of (spend 1
            (record_call (ListForRepo "open" (onlyLabels options) 100 page) s))) = account s).
  { unfold account, spent in *. cbn in *. lia. }
  destruct issues as [|r issues]; [now rewrite Hcases|].
  pose proof (preserves_for_each (unchanged account) (processIssues_item env options)
                (r :: issues) account_processIssues_item
                (state_of (spend 1
                   (record_call (ListForRepo "open" (onlyLabels options) 100 page) s)))) as Hitems.
  unfold unchanged in Hitems. rewrite Hspend in Hitems.
  destruct (for_each _ _ _) as [[] s2|s2]; cbn [state_of] in Hitems; rewrite Hcases.
  - destruct (_ <=? _); exact Hitems.
  - now left.
Qed.

Lemma account_processIssues_fuel fuel : forall page s o,
  processIssues_fuel env options fuel page s = Some o ->
  match o with
  | Ok _ s' => account s' = account s
  | Throw s' => account s' = account s \/ account s' = account s + 1
  end.
Proof.
  induction fuel as [|fuel IH]; intros page s o; [discriminate|].
  cbn [processIssues_fuel]. pose proof (account_processIssues_page page s) as Hp.
  destruct (processIssues_page env options page s) as [[n|] s1|s1].
  - now intros [= <-].
  - intros H. specialize (IH _ _ _ H). rewrite Hp in IH. exact IH.
  - now intros [= <-].
Qed.

(** X16. Every operation spent by a run that returns is accounted for by
    what the run leaves behind: the budget that remains, plus two per issue
    in [staleIssues], one per issue in [closedIssues], one per issue in
    [removedLabelIssues], one per page request and one per label history
    asked for, is the budget the run started with.  Fetches of comments do
    not figure in the sum.  A run that ends on a rejected call is off by
    one at most, a rejected page request being left uncharged. *)
Theorem budget_accounted_for page s :
  exists o,
    processIssues env options page s = Some o
    /\ match o with
       | Ok _ s' => account s' = account s
       | Throw s' => account s' = account s \/ account s' = account s + 1
       end.
Proof.
  destruct (processIssues_total env options page s) as [o Hrun].
  exists o. split; [exact Hrun|].
  exact (account_processIssues_fuel _ _ _ _ Hrun).
Qed.

End Bounds.

Section Shape.

Variable env : Env.
Variable options : IssueProcessorOptions.

Ltac shape_go :=
  repeat first
    [ preserves_step
    | apply trace_spend | apply trace_push_stale | apply trace_push_closed
    | apply trace_push_removed | apply trace_set_updated_at
    | apply trace_Date_now; exact I
    | apply trace_await_read; cbn [well_formed_call]; auto
    | apply trace_await_write; cbn [well_formed_call]; auto ].

Lemma shape_updatedSince ts d :
  preserves (extends_with (well_formed_call options)) (updatedSince env ts d).
Proof. unfold updatedSince. shape_go. Qed.

Lemma shape_hasCommentsSince r d :
  preserves (extends_with (well_formed_call options)) (hasCommentsSince env r d).
Proof.
  unfold hasCommentsSince, listIssueComments.
  destruct (truthy d) eqn:E; cbn [negb]; shape_go.
Qed.

Lemma shape_markStale r m l :
  m <> "" ->
  m = stalePrMessage options \/ m = staleIssueMessage options ->
  l = stalePrLabel options \/ l = staleIssueLabel options ->
  preserves (extends_with (well_formed_call options)) (markStale env options r m l).
Proof.
  intros Hm Hm' Hl. unfold markStale. shape_go.
  destruct Hl as [-> | ->]; auto.
Qed.

Lemma shape_processStaleIssue r t l :
  l = stalePrLabel options \/ l = staleIssueLabel options ->
  preserves (extends_with (well_formed_call options)) (processStaleIssue env options r t l).
Proof.
  intros Hl. unfold processStaleIssue, getLabelCreationDate, removeLabel, closeIssue.
  repeat first [ apply shape_hasCommentsSince | apply shape_updatedSince | shape_go ].
  destruct Hl as [-> | ->]; auto.
Qed.

Lemma shape_processIssues_item r :
  preserves (extends_with (well_formed_call options)) (processIssues_item env options r).
Proof.
  unfold processIssues_item.
  apply preserves_bind; try typeclasses eauto; [apply preserves_deref; typeclasses eauto|].
  intros issue. cbv zeta.
  destruct (pull_request issue).
  all: destruct (String.eqb _ "") eqn:Emsg;
    [apply preserves_ret; typeclasses eauto | apply String.eqb_neq in Emsg].
  all: repeat first
         [ apply shape_processStaleIssue; auto
         | apply shape_markStale; auto
         | apply shape_updatedSince
         | preserves_step ].
Qed.

(** X17. Whatever the repository answers, the calls of a run have the
    configured shape: pages are asked for with state "open", the
    [onlyLabels] filter and 100 per page; comments are fetched since a
    non-empty date; a comment posted is one of the two stale messages and
    is not empty; a label added is one of the two stale labels, and a
    label removed is one of them in its URI-encoded form; and an update
    sets the state to "closed", never to anything else. *)
Theorem calls_well_formed page s :
  exists o,
    processIssues env options page s = Some o
    /\ exists new, trace (state_of o) = trace s ++ new
                   /\ Forall (well_formed_call options) new.
Proof.
  destruct (processIssues_total env options page s) as [o Hrun].
  exists o. split; [exact Hrun|].
  apply (preserves_processIssues (extends_with (well_formed_call options))
           env options) with page; auto.
  - intros p. unfold getIssues. apply trace_await_read. cbn. auto.
  - apply trace_spend.
  - apply shape_processIssues_item.
Qed.

#[local] Instance grows_refl {X} (f : State -> list X) : Reflexive (grows f).
Proof. intros s. unfold grows. reflexivity. Qed.

#[local] Instance grows_trans {X} (f : State -> list X) : Transitive (grows f).
Proof. intros a b c. unfold grows. apply transitivity. Qed.

Ltac grows_prim :=
  intros ?; unfold grows, await_read, await_write;
  repeat case_match; cbn;
  first [ reflexivity | apply prefix_app_r; reflexivity ].

Ltac grows_go := repeat first [ preserves_step | solve [grows_prim] ].

Lemma grows_processIssues_item {X} (f : State -> list X) r :
  (forall r', preserves (grows f) (push_stale r')) ->
  (forall r', preserves (grows f) (push_closed r')) ->
  (forall r', preserves (grows f) (push_removed r')) ->
  (forall n, preserves (grows f) (spend n)) ->
  (forall r' v, preserves (grows f) (set_updated_at r' v)) ->
  preserves (grows f) (Date_now env) ->
  (forall A (g : list Call -> Call -> option A) c, preserves (grows f) (await_read g c)) ->
  (forall c, preserves (grows f) (await_write env c)) ->
  preserves (grows f) (processIssues_item env options r).
Proof.
  intros H1 H2 H3 H4 H5 H6 H7 H8. unfold_methods.
  repeat first
    [ apply H1 | apply H2 | apply H3 | apply H4 | apply H5 | apply H6
    | apply H7 | apply H8 | preserves_step ].
Qed.

Lemma grows_run {X} (f : State -> list X) page s o :
  (forall r', preserves (grows f) (push_stale r')) ->
  (forall r', preserves (grows f) (push_closed r')) ->
  (forall r', preserves (grows f) (push_removed r')) ->
  (forall n, preserves (grows f) (spend n)) ->
  (forall r' v, preserves (grows f) (set_updated_at r' v)) ->
  preserves (grows f) (Date_now env) ->
  (forall A (g : list Call -> Call -> option A) c, preserves (grows f) (await_read g c)) ->
  (forall c, preserves (grows f) (await_write env c)) ->
  processIssues env options page s = Some o ->
  f s `prefix_of` f (state_of o).
Proof.
  intros H1 H2 H3 H4 H5 H6 H7 H8 Hrun.
  apply (preserves_processIssues (grows f) env options) with page; auto.
  - intros p. unfold getIssues. apply H7.
  - intros r. now apply grows_processIssues_item.
Qed.

(** X18. A run only adds: the three bookkeeping lists and the trace at
    the end of a run start with what they held at its beginning, and the
    budget left is no larger than before. *)
Theorem run_only_adds page s :
  exists o,
    processIssues env options page s = Some o
    /\ staleIssues s `prefix_of` staleIssues (state_of o)
    /\ closedIssues s `prefix_of` closedIssues (state_of o)
    /\ removedLabelIssues s `prefix_of` removedLabelIssues (state_of o)
    /\ trace s `prefix_of` trace (state_of o)
    /\ operationsLeft (state_of o) <= operationsLeft s.
Proof.
  destruct (processIssues_total env options page s) as [o Hrun].
  exists o. split; [exact Hrun|]. split_and!.
  - apply (grows_run staleIssues page s o); auto; intros; grows_prim.
  - apply (grows_run closedIssues page s o); auto; intros; grows_prim.
  - apply (grows_run removedLabelIssues page s o); auto; intros; grows_prim.
  - apply (grows_run trace page s o); auto; intros; grows_prim.
  - apply (preserves_processIssues budget_le env options) with page; auto.
    + intros p. unfold getIssues. apply budget_await_read.
    + apply budget_spend. lia.
    + apply budget_processIssues_item.
Qed.

End Shape.

Lemma closing_disabled_witness :
  daysBeforeClose ex_options_noclose < 0
  /\ exists o,
       processIssues ex_env ex_options_noclose 1 (example_state ex_options_noclose ex_issue_stale)
       = Some o
       /\ closedIssues (state_of o) = [].
Proof.
  assert (H : daysBeforeClose ex_options_noclose < 0) by (cbn; lia).
  split; [exact H|].
  destruct (closing_disabled ex_env ex_options_noclose 1
              (example_state ex_options_noclose ex_issue_stale) H) as (o & Hrun & Hc & _).
  exists o. split; [exact Hrun | exact Hc].
Defined.

Lemma unstale_disabled_witness :
  removeStaleWhenUpdated ex_options = false
  /\ exists o,
       processIssues ex_env_commented ex_options 1 ex_state_stale = Some o
       /\ In (ListComments 7 (TSdate 3000)) (trace (state_of o))
       /\ removedLabelIssues (state_of o) = removedLabelIssues ex_state_stale.
Proof.
  split; [reflexivity|].
  destruct (unstale_disabled ex_env_commented ex_options 1 ex_state_stale eq_refl)
    as (o & Hrun & Hc & _).
  exists o. split_and!; [exact Hrun | | exact Hc].
  vm_compute in Hrun. injection Hrun as <-. cbn [state_of trace].
  repeat first [left; reflexivity | right].
Defined.

(** The same issue and comments with [removeStaleWhenUpdated] set: the
    comment of the human has the label removed. *)
Example unstale_enabled_example :
  match processIssues ex_env_commented ex_options_unstale 1
          (example_state ex_options_unstale ex_issue_stale) with
  | Some (Ok _ s) =>
      removedLabelIssues s = [0%nat] /\ closedIssues s = []
      /\ List.filter is_remove_label (trace s) = [RemoveLabel 7 (plain "stale")]
  | _ => False
  end.
Proof. vm_compute. split_and!; reflexivity. Qed.

Lemma dry_run_never_writes_witness :
  debugOnly ex_options_dry = true
  /\ exists o,
       processIssues ex_env ex_options_dry 1 (example_state ex_options_dry (example_issue example_old []))
       = Some o
       /\ exists new, trace (state_of o) = [] ++ new
                      /\ Forall (fun c => is_mutation c = false) new.
Proof.
  split; [reflexivity|].
  exact (dry_run_never_writes ex_env ex_options_dry 1
           (example_state ex_options_dry (example_issue example_old [])) eq_refl).
Defined.


